(** * vibifly: the wave field, the emitter and the traveling waves

    A shallow embedding of
    - [src/js/WaveField.js]: the grid of cells, [addEnergy], [addWavePulse],
      [update], [clear] and the coordinate conversions (module [WaveField]);
    - [src/js/Utils.js]: [snapToScale] (module [Utils]);
    - Emitter.js: [emitWave], [shouldEmitWave], [activate], [deactivate]
      (module [Emitter]);
    - [src/js/WaveRenderer.js]: [updateTravelingWaves] (module
      [WaveRenderer]);
    - [src/js/Game.js]: [onWaveEmitted] and the part of [update] that drives
      the waves and the field (module [Game]).

    Numbers.  JavaScript numbers are embedded as real numbers: [+ - * /],
    the comparisons and the [Math] functions are the exact ones of [R].
    Rounding, [NaN] and the infinities of IEEE doubles are not part of the
    embedding.  Integer-valued quantities that the code uses as array
    lengths, indices and counters ([resolution], grid coordinates,
    [timeStep]) are embedded as [Z].

    Objects.  A method that mutates [this] becomes a function returning the
    new object, and a method that can throw returns a [Result].  Where two
    collections share mutable objects (the traveling waves), the objects
    live in a store and the collections hold references. *)

From Stdlib Require Import Reals Lra Lia ZArith Bool String.
From stdpp Require Import base tactics option list list_numbers.

Open Scope R_scope.

(** ** Numbers and [Math] *)

Module JsNum.

Definition Rltb (x y : R) : bool := if Rlt_dec x y then true else false.
Definition Rleb (x y : R) : bool := if Rle_dec x y then true else false.
Definition Reqb (x y : R) : bool := if Req_EM_T x y then true else false.

(** [Math.floor], [Math.ceil], and truncation toward zero. *)
Definition Math_floor (x : R) : Z := Zfloor x.
Definition Math_ceil (x : R) : Z := Zceil x.
Definition trunc (x : R) : Z := if Rleb 0 x then Zfloor x else Zceil x.

(** The [%] operator on numbers: the remainder has the sign of the dividend. *)
Definition rem (a b : R) : R := a - b * IZR (trunc (a / b)).

(** [Math.round]: the nearest integer, halves rounded up. *)
Definition Math_round (x : R) : R := IZR (Zfloor (x + 0.5)).

Definition Math_min (a b : R) : R := Rmin a b.
Definition Math_max (a b : R) : R := Rmax a b.
Definition Math_abs (a : R) : R := Rabs a.
Definition Math_sqrt (a : R) : R := sqrt a.

(** [Math.pow] and [**]; the code only uses the positive bases 0.98 and 2. *)
Definition Math_pow (b e : R) : R := Rpower b e.

Definition Math_log2 (x : R) : R := ln x / ln 2.

(** [Math.atan2 (y, x)], the angle of the point [(x, y)] in (-PI, PI]. *)
Definition Math_atan2 (y x : R) : R :=
  if Rltb 0 x then atan (y / x)
  else if Rltb x 0 then (if Rleb 0 y then atan (y / x) + PI else atan (y / x) - PI)
  else if Rltb 0 y then PI / 2
  else if Rltb y 0 then - (PI / 2)
  else 0.

End JsNum.

Export JsNum.

Notation "x <? y" := (Rltb x y) : R_scope.
Notation "x <=? y" := (Rleb x y) : R_scope.
Notation "x >? y" := (Rltb y x) : R_scope.
Notation "x >=? y" := (Rleb y x) : R_scope.

(** ** Exceptions *)

Inductive JsError : Set :=
| RangeError   (* [new Array(n)] with an invalid length *)
| TypeError.   (* a property read on [undefined] *)

Inductive Result (A : Type) : Type :=
| Ok (a : A)
| Throw (e : JsError).

Arguments Ok {A} a.
Arguments Throw {A} e.

Definition bind {A B : Type} (m : Result A) (k : A -> Result B) : Result B :=
  match m with
  | Ok a => k a
  | Throw e => Throw e
  end.

Notation "'try' x <- m 'in' k" := (bind m (fun x => k))
  (at level 10, x name, m at level 100, k at level 200).

(** A [for] loop whose body may throw: the state is threaded through the
    iterations, and the first exception ends the loop. *)
Fixpoint foldM {A S : Type} (body : S -> A -> Result S) (l : list A) (s : S)
  : Result S :=
  match l with
  | [] => Ok s
  | a :: l' => try s' <- body s a in foldM body l' s'
  end.

(** [arr[i]] for an integer index: [undefined] outside the array. *)
Definition array_get {A : Type} (arr : list A) (i : Z) : option A :=
  if (i <? 0)%Z then None else arr !! Z.to_nat i.

(** [new Array(n)] throws a RangeError unless [n] is an integer in
    [0, 2^32 - 1]. *)
Definition array_length_ok (n : Z) : bool := ((0 <=? n) && (n <? 2 ^ 32))%Z.

(** ** WaveField.js *)

Module WaveField.

Record Vec2 : Type := mkVec2 { X : R; Y : R }.

Record Color : Type := mkColor { c0 : R; c1 : R; c2 : R }.

(** A grid cell.  The constructor gives every cell a [velocity] object and
    nothing ever removes it, so the [cell.velocity ? .. : ..] guards of the
    source always take their first branch and [velocity] is a plain field. *)
Record Cell : Type := mkCell {
  energy : R;
  frequency : R;
  color : Color;
  lastActive : Z;
  phase : R;
  velocity : Vec2;
}.

Record t : Type := mkField {
  width : R;
  height : R;
  resolution : Z;
  cellWidth : R;
  cellHeight : R;
  grid : list Cell;
  decayRate : R;
  propagationSpeed : R;
  timeStep : Z;
  maxVelocity : R;
}.

Definition set_grid (f : t) (g : list Cell) : t :=
  mkField (width f) (height f) (resolution f) (cellWidth f) (cellHeight f)
          g (decayRate f) (propagationSpeed f) (timeStep f) (maxVelocity f).

Definition set_timeStep (f : t) (ts : Z) : t :=
  mkField (width f) (height f) (resolution f) (cellWidth f) (cellHeight f)
          (grid f) (decayRate f) (propagationSpeed f) ts (maxVelocity f).

Definition initial_cell : Cell :=
  {| energy := 0; frequency := 440; color := mkColor 0 0 0;
     lastActive := 0; phase := 0; velocity := mkVec2 0 0 |}.

(** [constructor(width, height, resolution)]. *)
Definition constructor (width height : R) (resolution : Z) : Result t :=
  if array_length_ok (resolution * resolution) then
    Ok {| width := width;
          height := height;
          resolution := resolution;
          cellWidth := width / IZR resolution;
          cellHeight := height / IZR resolution;
          grid := replicate (Z.to_nat (resolution * resolution)) initial_cell;
          decayRate := 0.98;
          propagationSpeed := 0.3;
          timeStep := 0;
          maxVelocity := 5 |}
  else Throw RangeError.

Definition out_of_grid (f : t) (gx gy : Z) : bool :=
  ((gx <? 0) || (gx >=? resolution f) || (gy <? 0) || (gy >=? resolution f))%Z.

Definition cell_index (f : t) (gx gy : Z) : Z := (gy * resolution f + gx)%Z.

(** [getCell(x, y)]: [None] is the source's [null] (or [undefined]). *)
Definition getCell (f : t) (gx gy : Z) : option Cell :=
  if out_of_grid f gx gy then None
  else array_get (grid f) (cell_index f gx gy).

Definition gridToWorld (f : t) (gridX gridY : R) : Vec2 :=
  {| X := gridX * cellWidth f + cellWidth f / 2;
     Y := gridY * cellHeight f + cellHeight f / 2 |}.

Definition worldToGrid (f : t) (worldX worldY : R) : Z * Z :=
  (Math_floor (worldX / cellWidth f), Math_floor (worldY / cellHeight f)).


(** [clear()]. *)
Definition clear_cell (cell : Cell) : Cell :=
  {| energy := 0; frequency := 440; color := mkColor 0 0 0;
     lastActive := lastActive cell; phase := 0; velocity := velocity cell |}.

Definition clear (f : t) : t := set_grid f (map clear_cell (grid f)).

(** [addEnergy(gridX, gridY, amount, frequency, color)]. *)
Definition blend (old new blendFactor : R) : R :=
  old * (1 - blendFactor) + new * blendFactor.

Definition blend_color (old new : Color) (blendFactor : R) : Color :=
  mkColor (Math_round (blend (c0 old) (c0 new) blendFactor))
          (Math_round (blend (c1 old) (c1 new) blendFactor))
          (Math_round (blend (c2 old) (c2 new) blendFactor)).

Definition addEnergy_cell (f : t) (amount frequency' : R) (color' : Color)
    (cell : Cell) : Cell :=
  let currentEnergy := energy cell in
  let newEnergy := Math_min 1 (currentEnergy + amount) in
  let blendFactor := amount / (currentEnergy + amount) in
  let significant := amount >? 0.05 in
  {| energy := newEnergy;
     frequency := if significant
                  then blend (frequency cell) frequency' blendFactor
                  else frequency cell;
     color := if significant
              then blend_color (color cell) color' blendFactor
              else color cell;
     lastActive := timeStep f;
     phase := phase cell;
     velocity := velocity cell |}.

Definition addEnergy (f : t) (gridX gridY : Z) (amount frequency' : R)
    (color' : Color) : t :=
  match getCell f gridX gridY with
  | None => f
  | Some cell =>
      set_grid f (<[Z.to_nat (cell_index f gridX gridY) :=
                     addEnergy_cell f amount frequency' color' cell]> (grid f))
  end.

(** [addWavePulse(worldX, worldY, radius, intensity, frequency, color,
    angle = 0, spreadAngle = 360)]. *)
Record Pulse : Type := mkPulse {
  worldX : R;
  worldY : R;
  radius : R;
  intensity : R;
  pulseFrequency : R;
  pulseColor : Color;
  angle : R;
  spreadAngle : R;
}.

Definition normalize_angle (a : R) : R :=
  rem (rem a (2 * PI) + 2 * PI) (2 * PI).

(** The cone test: [(isInDirection, directionFactor)] for the cell whose
    center is offset by [(dx, dy)] from the origin of the pulse; [angle'] is
    the normalized angle. *)
Definition direction (p : Pulse) (angle' dx dy : R) : bool * R :=
  if spreadAngle p <? 360 then
    let cellAngle := Math_atan2 dy dx in
    let angleDiff0 := Math_abs (cellAngle - angle') in
    let angleDiff := if angleDiff0 >? PI then 2 * PI - angleDiff0 else angleDiff0 in
    let halfSpread := spreadAngle p * PI / 360 in
    let isInDirection := angleDiff <=? halfSpread in
    (isInDirection, if isInDirection then 1 - angleDiff / halfSpread else 0)
  else (true, 1).

(** The write to one cell on the wave front. *)
Definition pulse_cell (f : t) (p : Pulse) (angle' cellIntensity directionFactor : R)
    (cell : Cell) : Cell :=
  let velocityFactor := 2 in
  let velocityX := cos angle' * velocityFactor in
  let velocityY := sin angle' * velocityFactor in
  let currentEnergy := energy cell in
  let newEnergy := Math_min 1 (currentEnergy + cellIntensity) in
  let vx := velocityX * cellIntensity * directionFactor in
  let vy := velocityY * cellIntensity * directionFactor in
  let velocity' :=
    if cellIntensity >? 0.1 then
      let blendFactor :=
        cellIntensity / (if Reqb newEnergy 0 then 1 else newEnergy) in
      mkVec2 (blend (X (velocity cell)) vx blendFactor)
             (blend (Y (velocity cell)) vy blendFactor)
    else velocity cell in
  let blendFactor := cellIntensity / newEnergy in
  let significant := cellIntensity >? 0.05 in
  {| energy := newEnergy;
     frequency := if significant
                  then blend (frequency cell) (pulseFrequency p) blendFactor
                  else frequency cell;
     color := if significant
              then blend_color (color cell) (pulseColor p) blendFactor
              else color cell;
     lastActive := timeStep f;
     phase := phase cell;
     velocity := velocity' |}.

(** The body of the two nested loops, at grid coordinates [(x, y)]. *)
Definition pulse_at (f : t) (p : Pulse) (angle' : R) (y : Z)
    (g : list Cell) (x : Z) : Result (list Cell) :=
  if out_of_grid f x y then Ok g
  else
    let cellWorld := gridToWorld f (IZR x) (IZR y) in
    let dx := X cellWorld - worldX p in
    let dy := Y cellWorld - worldY p in
    let distance := Math_sqrt (dx * dx + dy * dy) in
    if distance <=? radius p then
      let '(isInDirection, directionFactor) := direction p angle' dx dy in
      if isInDirection then
        let waveThickness := radius p * 0.2 in
        let distFromWaveFront := Math_abs (distance - radius p) in
        if distFromWaveFront <? waveThickness then
          let intensityFactor := 1 - distFromWaveFront / waveThickness in
          let cellIntensity := intensity p * intensityFactor in
          match array_get g (cell_index f x y) with
          | None => Throw TypeError
          | Some cell =>
              Ok (<[Z.to_nat (cell_index f x y) :=
                     pulse_cell f p angle' cellIntensity directionFactor cell]> g)
          end
        else Ok g
      else Ok g
    else Ok g.

Definition addWavePulse (f : t) (p : Pulse) : Result t :=
  let angle' := normalize_angle (angle p) in
  let centerGridPos := worldToGrid f (worldX p) (worldY p) in
  let gridRadius := Math_ceil (radius p / cellWidth f) in
  let ys := seqZ (centerGridPos.2 - gridRadius) (2 * gridRadius + 1) in
  let xs := seqZ (centerGridPos.1 - gridRadius) (2 * gridRadius + 1) in
  try g <- foldM (fun g y => foldM (pulse_at f p angle' y) xs g) ys (grid f) in
  Ok (set_grid f g).

(** [update(deltaTime)]. *)
Definition copy_cell (cell : Cell) : Cell :=
  {| energy := energy cell; frequency := frequency cell; color := color cell;
     lastActive := lastActive cell; phase := phase cell;
     velocity := mkVec2 (X (velocity cell)) (Y (velocity cell)) |}.

(** The write to [cell.phase], on the cell of [this.grid]. *)
Definition advance_phase (deltaTime : R) (cell : Cell) : Cell :=
  if energy cell >? 0.01 then
    {| energy := energy cell; frequency := frequency cell; color := color cell;
       lastActive := lastActive cell;
       phase := rem (phase cell + deltaTime * frequency cell / 20) (PI * 2);
       velocity := velocity cell |}
  else cell.

(** The writes to [newGrid[cellIndex]], read from the cell of [this.grid]. *)
Definition decay_cell (f : t) (deltaTime : R) (cell newCell : Cell) : Cell :=
  let newEnergy := energy cell * Math_pow (decayRate f) (deltaTime * 60) in
  let velocity' :=
    if negb (Reqb (X (velocity cell)) 0) || negb (Reqb (Y (velocity cell)) 0) then
      let v :=
        if energy cell >? 0.01 then
          let energyRatio := newEnergy / energy cell in
          mkVec2 (X (velocity cell) * energyRatio) (Y (velocity cell) * energyRatio)
        else
          mkVec2 (X (velocity cell) * 0.8) (Y (velocity cell) * 0.8) in
      let velMagnitude := Math_sqrt (X v * X v + Y v * Y v) in
      if velMagnitude <? 0.01 then mkVec2 0 0 else v
    else velocity newCell in
  {| energy := if newEnergy <? 0.01 then 0 else newEnergy;
     frequency := frequency newCell;
     color := color newCell;
     lastActive := lastActive newCell;
     phase := phase newCell;
     velocity := velocity' |}.

(** The loop body at [cellIndex]; the state is [(this.grid, newGrid)]. *)
Definition update_at (f : t) (deltaTime : R) (st : list Cell * list Cell)
    (cellIndex : Z) : Result (list Cell * list Cell) :=
  match array_get st.1 cellIndex, array_get st.2 cellIndex with
  | Some cell0, Some newCell =>
      let cell := advance_phase deltaTime cell0 in
      Ok (<[Z.to_nat cellIndex := cell]> st.1,
          <[Z.to_nat cellIndex := decay_cell f deltaTime cell newCell]> st.2)
  | _, _ => Throw TypeError
  end.

(** The two nested loops of [update]: the final [(this.grid, newGrid)]. *)
Definition update_loops (f : t) (deltaTime : R)
  : Result (list Cell * list Cell) :=
  let newGrid := map copy_cell (grid f) in
  foldM (fun st y =>
           foldM (fun st x => update_at f deltaTime st (y * resolution f + x)%Z)
                 (seqZ 0 (resolution f)) st)
        (seqZ 0 (resolution f)) (grid f, newGrid).

Definition update (f : t) (deltaTime : R) : Result t :=
  let f1 := set_timeStep f (timeStep f + 1) in
  try st <- update_loops f1 deltaTime in
  Ok (set_grid f1 st.2).

(** The cells of the old grid as [update] leaves them: they carry the phase
    writes and are unreachable from the field once [this.grid = newGrid]. *)
Definition update_discarded (f : t) (deltaTime : R) : Result (list Cell) :=
  let f1 := set_timeStep f (timeStep f + 1) in
  try st <- update_loops f1 deltaTime in
  Ok st.1.

(** [getActiveCells(threshold = 0.05)]: the items of the mapped grid that
    pass the filter, in the order of the grid. *)
Record ActiveCell : Type := mkActiveCell {
  itemCell : Cell;
  itemIndex : Z;
  itemX : R;
  itemY : Z;
  itemWorldX : R;
  itemWorldY : R;
}.

Definition active_item (f : t) (index : nat) (cell : Cell) : ActiveCell :=
  let i := IZR (Z.of_nat index) in
  {| itemCell := cell;
     itemIndex := Z.of_nat index;
     itemX := rem i (IZR (resolution f));
     itemY := Math_floor (i / IZR (resolution f));
     itemWorldX := rem i (IZR (resolution f)) * cellWidth f + cellWidth f / 2;
     itemWorldY := IZR (Math_floor (i / IZR (resolution f))) * cellHeight f
                   + cellHeight f / 2 |}.

Definition getActiveCells (f : t) (threshold : R) : list ActiveCell :=
  List.filter (fun item => energy (itemCell item) >? threshold)
              (imap (active_item f) (grid f)).

(** Sequences of calls on a field. *)
Inductive Op : Type :=
| OpAddEnergy (gridX gridY : Z) (amount frequency' : R) (color' : Color)
| OpAddWavePulse (p : Pulse)
| OpUpdate (deltaTime : R)
| OpClear.

Definition apply_op (f : t) (op : Op) : Result t :=
  match op with
  | OpAddEnergy gx gy amount fr col => Ok (addEnergy f gx gy amount fr col)
  | OpAddWavePulse p => addWavePulse f p
  | OpUpdate deltaTime => update f deltaTime
  | OpClear => Ok (clear f)
  end.

Definition run (ops : list Op) (f : t) : Result t := foldM apply_op ops f.

(** [n] successive calls [update(deltaTime)]. *)
Definition updates (deltaTime : R) (n : nat) (f : t) : Result t :=
  run (replicate n (OpUpdate deltaTime)) f.

End WaveField.

(** ** Utils.js *)

Module Utils.

(** The scale patterns, semitones from the root. *)
Definition scales : list (string * list Z) :=
  [ ("major"%string, [0; 2; 4; 5; 7; 9; 11]%Z);
    ("minor"%string, [0; 2; 3; 5; 7; 8; 10]%Z);
    ("pentatonic"%string, [0; 2; 4; 7; 9]%Z);
    ("minorPentatonic"%string, [0; 3; 5; 7; 10]%Z);
    ("harmonicMinor"%string, [0; 2; 3; 5; 7; 8; 11]%Z);
    ("chromatic"%string, [0; 1; 2; 3; 4; 5; 6; 7; 8; 9; 10; 11]%Z) ].

Fixpoint scale_lookup (table : list (string * list Z)) (name : string)
  : option (list Z) :=
  match table with
  | [] => None
  | (key, pattern) :: rest =>
      if String.eqb key name then Some pattern else scale_lookup rest name
  end.

(** [scales[scaleType] || scales.major]. *)
Definition scale_pattern (scaleType : string) : list Z :=
  match scale_lookup scales scaleType with
  | Some pattern => pattern
  | None => [0; 2; 4; 5; 7; 9; 11]%Z
  end.

(** [distance < minDistance], where [None] is the initial [Infinity]. *)
Definition below (distance : R) (minDistance : option R) : bool :=
  match minDistance with
  | None => true
  | Some m => distance <? m
  end.

(** One iteration of the search: the note of the pattern, then the same note
    an octave lower.  The state is [(minDistance, closestNote)]. *)
Definition closest_step (semitonesInOctave : R) (st : option R * Z) (note : Z)
  : option R * Z :=
  let distance := Math_abs (semitonesInOctave - IZR note) in
  let st1 := if below distance st.1 then (Some distance, note) else st in
  let lowerDistance := Math_abs (semitonesInOctave - IZR (note - 12)) in
  if below lowerDistance st1.1 then (Some lowerDistance, (note - 12)%Z) else st1.

Definition closest_note (semitonesInOctave : R) (scalePattern : list Z) : Z :=
  (fold_left (closest_step semitonesInOctave) scalePattern (None, 0%Z)).2.

(** [snapToScale(frequency, scaleType = "major")]. *)
Definition snapToScale (frequency : R) (scaleType : string) : R :=
  let baseFreq := 440 in
  let scalePattern := scale_pattern scaleType in
  let semitones := 12 * Math_log2 (frequency / baseFreq) in
  let octave := Math_floor (semitones / 12) in
  let semitonesInOctave := rem (rem semitones 12 + 12) 12 in
  let closestNote := closest_note semitonesInOctave scalePattern in
  baseFreq * Math_pow 2 (IZR (octave * 12 + closestNote) / 12).

(** [hslToRgb(h, s, l)]. *)
Definition hue2rgb (p q t : R) : R :=
  let t1 := if t <? 0 then t + 1 else t in
  let t2 := if t1 >? 1 then t1 - 1 else t1 in
  if t2 <? 1 / 6 then p + (q - p) * 6 * t2
  else if t2 <? 1 / 2 then q
  else if t2 <? 2 / 3 then p + (q - p) * (2 / 3 - t2) * 6
  else p.

Definition hslToRgb (h s l : R) : WaveField.Color :=
  let '(r, g, b) :=
    if Reqb s 0 then (l, l, l)
    else
      let q := if l <? 0.5 then l * (1 + s) else l + s - l * s in
      let p := 2 * l - q in
      (hue2rgb p q (h + 1 / 3), hue2rgb p q h, hue2rgb p q (h - 1 / 3)) in
  WaveField.mkColor (Math_round (r * 255)) (Math_round (g * 255))
                    (Math_round (b * 255)).

(** [getPlayerColor(playerId, variation = 0)]. *)
Definition getPlayerColor (playerId variation : R) : WaveField.Color :=
  let goldenRatio := 0.618033988749895 in
  let hue := rem (rem (playerId * goldenRatio) 1 + variation * 0.2) 1 in
  hslToRgb hue 0.85 0.6.

End Utils.

(** ** Emitter.js *)

(** A value passed for an optional numeric parameter. *)
Inductive JsValue : Type :=
| JsUndefined
| JsNumber (n : R).

(** [v || alt] for such a value: [undefined] and [0] are falsy. *)
Definition or_else (v : JsValue) (alt : R) : R :=
  match v with
  | JsUndefined => alt
  | JsNumber n => if Reqb n 0 then alt else n
  end.

Module Emitter.

Import WaveField.

(** The wave object built by [emitWave]. *)
Record Wave : Type := mkWave {
  emitterId : string;
  wavePlayerId : Z;
  waveType : string;
  wavePosition : Vec2;
  waveAngle : R;
  waveSpreadAngle : R;
  waveRadius : R;
  waveMaxRadius : R;
  speed : R;
  waveIntensity : R;
  waveFrequency : R;
  waveColor : Color;
  waveOscillatorType : string;
  waveFilterType : string;
  waveFilterFrequency : R;
  waveFilterQ : R;
  waveReverbAmount : R;
  waveGain : R;
  createdAt : R;
}.

(** The emitter.  [onEmitWave] tells whether a callback is registered; the
    callback of this program, [Game.onWaveEmitted], stores the wave and
    writes none of its fields, so a call is embedded as the wave it is
    handed. *)
Record t : Type := mkEmitter {
  id : string;
  type : string;
  playerId : Z;
  position : Vec2;
  active : bool;
  angle : R;
  spreadAngle : R;
  waveSpeed : R;
  waveDensity : R;
  lastEmitTime : R;
  baseColor : Color;
  pulseSize : R;
  maxRadius : R;
  baseFrequency : R;
  scaleType : string;
  oscillatorType : string;
  filterType : string;
  filterFrequency : R;
  filterQ : R;
  reverbAmount : R;
  gain : R;
  onEmitWave : bool;
}.

Definition set_lastEmitTime (e : t) (time : R) : t :=
  mkEmitter (id e) (type e) (playerId e) (position e) (active e) (angle e)
            (spreadAngle e) (waveSpeed e) (waveDensity e) time (baseColor e)
            (pulseSize e) (maxRadius e) (baseFrequency e) (scaleType e)
            (oscillatorType e) (filterType e) (filterFrequency e) (filterQ e)
            (reverbAmount e) (gain e) (onEmitWave e).

Definition set_active (e : t) (a : bool) : t :=
  mkEmitter (id e) (type e) (playerId e) (position e) a (angle e)
            (spreadAngle e) (waveSpeed e) (waveDensity e) (lastEmitTime e)
            (baseColor e) (pulseSize e) (maxRadius e) (baseFrequency e)
            (scaleType e) (oscillatorType e) (filterType e) (filterFrequency e)
            (filterQ e) (reverbAmount e) (gain e) (onEmitWave e).

(** What [emitWave] returns and does: the returned wave ([None] is [null]),
    the emitter after the call, and the waves handed to the callback. *)
Record Emission : Type := mkEmission {
  returned : option Wave;
  emitter : t;
  callbacks : list Wave;
}.

(** [emitWave(intensity = 1.0, timeStep)].  [random] is the value of
    [Math.random()] and [now] the value of [performance.now()] at the call. *)
Definition emitWave (e : t) (intensity : R) (timeStep : JsValue)
    (random now : R) : Emission :=
  if negb (active e) then mkEmission None e []
  else
    let frequency0 := baseFrequency e * (0.98 + random * 0.04) in
    let frequency :=
      if negb (String.eqb (scaleType e) "chromatic"%string)
      then Utils.snapToScale frequency0 (scaleType e)
      else frequency0 in
    let wave :=
      {| emitterId := id e;
         wavePlayerId := playerId e;
         waveType := type e;
         wavePosition := mkVec2 (X (position e)) (Y (position e));
         waveAngle := angle e;
         waveSpreadAngle := spreadAngle e;
         waveRadius := 10;
         waveMaxRadius := maxRadius e;
         speed := waveSpeed e;
         waveIntensity := intensity;
         waveFrequency := frequency;
         waveColor := baseColor e;
         waveOscillatorType := oscillatorType e;
         waveFilterType := filterType e;
         waveFilterFrequency := filterFrequency e;
         waveFilterQ := filterQ e;
         waveReverbAmount := reverbAmount e;
         waveGain := gain e * intensity;
         createdAt := or_else timeStep now |} in
    mkEmission (Some wave)
               (set_lastEmitTime e (createdAt wave))
               (if onEmitWave e then [wave] else []).

(** The defaults keyed by [this.type]. *)
Definition getOscillatorType (e : t) : string :=
  if String.eqb (type e) "thruster" then "sawtooth"
  else if String.eqb (type e) "weapon" then "square"
  else if String.eqb (type e) "explosion" then "triangle"
  else "sine".

Definition calculateBaseFrequency (e : t) : R :=
  let baseFreq := 220 * (1 + rem (IZR (playerId e)) 8 / 8) in
  if String.eqb (type e) "thruster" then baseFreq
  else if String.eqb (type e) "weapon" then baseFreq * 1.5
  else if String.eqb (type e) "explosion" then baseFreq * 0.5
  else baseFreq.

Definition getFilterFrequency (e : t) : R :=
  if String.eqb (type e) "thruster" then 800
  else if String.eqb (type e) "weapon" then 2200
  else if String.eqb (type e) "explosion" then 400
  else 1000.

Definition getDefaultGain (e : t) : R :=
  if String.eqb (type e) "thruster" then 0.3
  else if String.eqb (type e) "weapon" then 0.7
  else if String.eqb (type e) "explosion" then 0.7
  else 0.4.

(** [shouldEmitWave(currentTime)]. *)
Definition shouldEmitWave (e : t) (currentTime : R) : bool :=
  if negb (active e) || (waveDensity e <=? 0) then false
  else
    let timeSinceLastEmit := currentTime - lastEmitTime e in
    let emitInterval := 1000 / waveDensity e in
    timeSinceLastEmit >=? emitInterval.

Definition deactivate (e : t) : t := set_active e false.
Definition activate (e : t) : t := set_active e true.

End Emitter.

(** ** WaveRenderer.js: the traveling waves *)

(** The wave objects are shared: [Game.onWaveEmitted] pushes the same object
    on [Game.travelingWaves] and on [WaveRenderer.travelingWaves], and the
    renderer writes its radius and intensity.  The objects live in a store,
    and the two collections hold references into it. *)
Module WaveRenderer.

Import WaveField Emitter.

Abbreviation Ref := nat (only parsing).
Abbreviation Store := (list Wave) (only parsing).

Definition set_radius_intensity (w : Wave) (radius' intensity' : R) : Wave :=
  mkWave (emitterId w) (wavePlayerId w) (waveType w) (wavePosition w)
         (waveAngle w) (waveSpreadAngle w) radius' (waveMaxRadius w) (speed w)
         intensity' (waveFrequency w) (waveColor w) (waveOscillatorType w)
         (waveFilterType w) (waveFilterFrequency w) (waveFilterQ w)
         (waveReverbAmount w) (waveGain w) (createdAt w).

(** The writes of the filter callback of [updateTravelingWaves]. *)
Definition grow (deltaTime : R) (w : Wave) : Wave :=
  let radius' := waveRadius w + speed w * deltaTime in
  let distanceFactor := 1 - radius' / waveMaxRadius w / 2 in
  set_radius_intensity w radius' (Math_max 0 (waveIntensity w * distanceFactor)).

(** The value the callback returns: keep the wave. *)
Definition renderer_keeps (w : Wave) : bool :=
  (waveRadius w <? waveMaxRadius w) && (waveIntensity w >? 0.01).

(** [addTravelingWave(wave)]. *)
Definition addTravelingWave (travelingWaves : list Ref) (wave : Ref) : list Ref :=
  travelingWaves ++ [wave].

(** [WaveRenderer.updateTravelingWaves(deltaTime)]: the store after the
    writes, and the new [this.travelingWaves]. *)
Fixpoint updateTravelingWaves (deltaTime : R) (store : Store)
    (travelingWaves : list Ref) : Store * list Ref :=
  match travelingWaves with
  | [] => (store, [])
  | r :: rest =>
      match store !! r with
      | None => updateTravelingWaves deltaTime store rest
      | Some w =>
          let w' := grow deltaTime w in
          let res := updateTravelingWaves deltaTime (<[r := w']> store) rest in
          if renderer_keeps w' then (res.1, r :: res.2) else res
      end
  end.

(** [getAverageColor(colors)]. *)
Definition sum_colors (colors : list Color) : Color :=
  fold_left (fun sum color =>
               mkColor (c0 sum + c0 color) (c1 sum + c1 color) (c2 sum + c2 color))
            colors (mkColor 0 0 0).

Definition getAverageColor (colors : list Color) : Color :=
  match colors with
  | [] => mkColor 255 255 255
  | _ =>
      let sum := sum_colors colors in
      let n := INR (length colors) in
      mkColor (Math_round (c0 sum / n)) (Math_round (c1 sum / n))
              (Math_round (c2 sum / n))
  end.

End WaveRenderer.

(** ** Game.js: the waves in the game loop *)

Module Game.

Import WaveField Emitter WaveRenderer.

(** The state of the game that the waves touch. *)
Record Game : Type := mkGame {
  store : Store;
  rendererWaves : list Ref;    (* [this.waveRenderer.travelingWaves] *)
  gameWaves : list Ref;        (* [this.travelingWaves] *)
  waveField : WaveField.t;
}.

(** [onWaveEmitted(wave)], for a wave object fresh from [emitWave]. *)
Definition onWaveEmitted (g : Game) (wave : Wave) : Game :=
  let r := length (store g) in
  mkGame (store g ++ [wave]) (addTravelingWave (rendererWaves g) r)
         (gameWaves g ++ [r]) (waveField g).

Definition pulse_of (w : Wave) : Pulse :=
  mkPulse (X (wavePosition w)) (Y (wavePosition w)) (waveRadius w)
          (waveIntensity w) (waveFrequency w) (waveColor w) (waveAngle w)
          (waveSpreadAngle w).

(** The body of the [forEach] of [update]: a wave with intensity above
    0.05 is sent to [addWavePulse].  The state is the field and the
    references of the waves sent so far. *)
Definition pulse_wave (store : Store) (st : WaveField.t * list Ref) (r : Ref)
  : Result (WaveField.t * list Ref) :=
  match store !! r with
  | None => Ok st
  | Some w =>
      if waveIntensity w >? 0.05 then
        try field' <- addWavePulse st.1 (pulse_of w) in
        Ok (field', st.2 ++ [r])
      else Ok st
  end.

(** The filter at the end of [update]. *)
Definition game_keeps (w : Wave) : bool :=
  (waveRadius w <=? waveMaxRadius w) && (waveIntensity w >? 0.01).

Definition clean_up (store : Store) (travelingWaves : list Ref) : list Ref :=
  List.filter (fun r => match store !! r with
                        | Some w => game_keeps w
                        | None => false
                        end) travelingWaves.

(** The part of [update(deltaTime)] that concerns the waves, in the
    order of the source: the renderer's waves, the field, the pulses, the
    clean-up.  Returns the game after the tick and the references of the
    waves that were sent to [addWavePulse] in it. *)
Definition update (g : Game) (deltaTime : R) : Result (Game * list Ref) :=
  let dt := Math_min deltaTime 0.1 in
  let '(store1, rendererWaves1) :=
    updateTravelingWaves dt (store g) (rendererWaves g) in
  try field1 <- WaveField.update (waveField g) dt in
  try st <- foldM (pulse_wave store1) (gameWaves g) (field1, []) in
  Ok (mkGame store1 rendererWaves1 (clean_up store1 (gameWaves g)) st.1, st.2).

(** [n] ticks of [deltaTime] more, then the pulses of the tick after them. *)
Fixpoint pulses_after (n : nat) (deltaTime : R) (g : Game) : Result (list Ref) :=
  match n with
  | O => try res <- update g deltaTime in Ok res.2
  | S n' => try res <- update g deltaTime in pulses_after n' deltaTime res.1
  end.

End Game.

(** * Vocabulary of the properties *)

Import WaveField.

(** The grid has [resolution * resolution] cells. *)
Definition grid_sized (f : t) : Prop :=
  length (grid f) = Z.to_nat (resolution f * resolution f).

Definition energy_bounded (f : t) : Prop :=
  forall (i : nat) (cell : Cell), grid f !! i = Some cell -> 0 <= energy cell <= 1.

Definition dark (f : t) : Prop :=
  forall (i : nat) (cell : Cell), grid f !! i = Some cell -> energy cell = 0.

(** The calls the bounds are stated for: nonnegative amounts, intensities
    and time steps. *)
Definition op_ok (op : Op) : Prop :=
  match op with
  | OpAddEnergy _ _ amount _ _ => 0 <= amount
  | OpAddWavePulse p => 0 <= intensity p
  | OpUpdate deltaTime => 0 <= deltaTime
  | OpClear => True
  end.

(** The fields a program can hold: built by the constructor, then changed
    by such calls. *)
Inductive reachable : t -> Prop :=
| reachable_new (w h : R) (res : Z) (f : t) :
    constructor w h res = Ok f -> reachable f
| reachable_step (f f' : t) (op : Op) :
    reachable f -> op_ok op -> apply_op f op = Ok f' -> reachable f'.

(** What holds of every reachable field.  A negative resolution gives a
    grid that no loop and no bounds check ever reaches: it stays dark. *)
Definition field_inv (f : t) : Prop :=
  grid_sized f /\ decayRate f = 0.98 /\ energy_bounded f /\
  ((resolution f < 0)%Z -> dark f).

(** Grid coordinates that pass the bounds checks. *)
Definition in_grid (f : t) (gx gy : Z) : Prop :=
  (0 <= gx < resolution f /\ 0 <= gy < resolution f)%Z.

(** The Euclidean distance from the origin of a pulse to the world center
    of cell [(gx, gy)]. *)
Definition cell_distance (f : t) (p : Pulse) (gx gy : Z) : R :=
  let c := gridToWorld f (IZR gx) (IZR gy) in
  Math_sqrt ((X c - worldX p) * (X c - worldX p)
             + (Y c - worldY p) * (Y c - worldY p)).

(** The cell lies on the ring: within the radius, and closer to the wave
    front than the thickness of the wave. *)
Definition on_wave_front (f : t) (p : Pulse) (gx gy : Z) : Prop :=
  cell_distance f p gx gy <= radius p /\
  Rabs (cell_distance f p gx gy - radius p) < radius p * 0.2.

Definition front_intensity (f : t) (p : Pulse) (gx gy : Z) : R :=
  intensity p *
  (1 - Rabs (cell_distance f p gx gy - radius p) / (radius p * 0.2)).

(** The cell that [update] leaves in the new grid for the cell [cell] of
    [this.grid]. *)
Definition updated_cell (f : t) (deltaTime : R) (cell : Cell) : Cell :=
  if (0 <=? resolution f)%Z
  then decay_cell f deltaTime (advance_phase deltaTime cell) (copy_cell cell)
  else copy_cell cell.

(** Sample values: the field [new WaveField(100, 100, 2)], a pulse of radius
    50 from the center of its cell (0, 0), and a short sequence of calls. *)
Definition sample_field : WaveField.t :=
  {| width := 100; height := 100; resolution := 2;
     cellWidth := 100 / 2; cellHeight := 100 / 2;
     grid := replicate 4 initial_cell;
     decayRate := 0.98; propagationSpeed := 0.3; timeStep := 0;
     maxVelocity := 5 |}.

Definition sample_pulse : Pulse :=
  mkPulse 25 25 50 1 440 (mkColor 255 0 0) 0 360.

Definition sample_ops : list Op :=
  [ OpAddEnergy 0 0 0.5 440 (mkColor 255 0 0);
    OpAddWavePulse sample_pulse;
    OpUpdate 0.1;
    OpClear ].

(** The thruster emitter of [Game.createShipEmitters], switched on; with
    [waveSpeed] it is the same emitter built with that option. *)
Definition thruster (waveSpeed : R) : Emitter.t :=
  {| Emitter.id := "player-thruster";
     Emitter.type := "thruster";
     Emitter.playerId := 0;
     Emitter.position := mkVec2 400 300;
     Emitter.active := true;
     Emitter.angle := 0;
     Emitter.spreadAngle := 90;
     Emitter.waveSpeed := waveSpeed;
     Emitter.waveDensity := 16;
     Emitter.lastEmitTime := 0;
     Emitter.baseColor := mkColor 240 66 66;
     Emitter.pulseSize := 30;
     Emitter.maxRadius := 300;
     Emitter.baseFrequency := 220;
     Emitter.scaleType := "pentatonic";
     Emitter.oscillatorType := "sawtooth";
     Emitter.filterType := "lowpass";
     Emitter.filterFrequency := 800;
     Emitter.filterQ := 1;
     Emitter.reverbAmount := 0.3;
     Emitter.gain := 0.3;
     Emitter.onEmitWave := true |}.

(** The search of [snapToScale] at a whole number of semitones, on
    integers. *)
Definition below_Z (distance : Z) (minDistance : option Z) : bool :=
  match minDistance with
  | None => true
  | Some m => (distance <? m)%Z
  end.

Definition closest_step_Z (semitonesInOctave : Z) (st : option Z * Z) (note : Z)
  : option Z * Z :=
  let distance := Z.abs (semitonesInOctave - note) in
  let st1 := if below_Z distance st.1 then (Some distance, note) else st in
  let lowerDistance := Z.abs (semitonesInOctave - (note - 12)) in
  if below_Z lowerDistance st1.1 then (Some lowerDistance, (note - 12)%Z) else st1.

Definition closest_note_Z (semitonesInOctave : Z) (scalePattern : list Z) : Z :=
  (fold_left (closest_step_Z semitonesInOctave) scalePattern (None, 0%Z)).2.

Definition lift_state (st : option Z * Z) : option R * Z := (IZR <$> st.1, st.2).

Definition major : list Z := [0; 2; 4; 5; 7; 9; 11]%Z.

(** The frequency of the note [k] semitones from A4. *)
Definition note_frequency (k : Z) : R := 440 * Math_pow 2 (IZR k / 12).




(** [n] successive calls of [updateTravelingWaves(deltaTime)] on the store
    and the renderer's collection. *)
Fixpoint renderer_ticks (n : nat) (deltaTime : R)
    (st : list Emitter.Wave * list nat) : list Emitter.Wave * list nat :=
  match n with
  | O => st
  | S n' =>
      renderer_ticks n' deltaTime
        (WaveRenderer.updateTravelingWaves deltaTime st.1 st.2)
  end.

(** The references of the game are sound: the renderer's collection has no
    duplicates and is part of the game's collection, every reference of the
    game points to a wave, and the field satisfies its invariant. *)
Definition game_inv (g : Game.Game) : Prop :=
  NoDup (Game.rendererWaves g) /\
  (forall r : nat, r ∈ Game.rendererWaves g -> r ∈ Game.gameWaves g) /\
  (forall r : nat, r ∈ Game.gameWaves g -> is_Some (Game.store g !! r)) /\
  field_inv (Game.waveField g).

(** The games a program can hold: a new game with a reachable field and no
    waves, then emissions and ticks. *)
Inductive playable : Game.Game -> Prop :=
| playable_new (field : WaveField.t) :
    reachable field -> playable (Game.mkGame [] [] [] field)
| playable_emit (g : Game.Game) (wave : Emitter.Wave) :
    playable g -> playable (Game.onWaveEmitted g wave)
| playable_tick (g g' : Game.Game) (deltaTime : R) (pulsed : list nat) :
    playable g -> 0 <= deltaTime ->
    Game.update g deltaTime = Ok (g', pulsed) -> playable g'.

(** * Properties *)

(** ** Comparisons and rounding *)

Lemma Rltb_true (a b : R) : (a <? b) = true <-> a < b.
Proof. unfold Rltb. destruct (Rlt_dec a b); split; intros; try done. Qed.

Lemma Rltb_false (a b : R) : (a <? b) = false <-> b <= a.
Proof.
  unfold Rltb. destruct (Rlt_dec a b); split; intros; try done; lra.
Qed.

Lemma Rleb_true (a b : R) : (a <=? b) = true <-> a <= b.
Proof. unfold Rleb. destruct (Rle_dec a b); split; intros; try done. Qed.

Lemma Rleb_false (a b : R) : (a <=? b) = false <-> b < a.
Proof.
  unfold Rleb. destruct (Rle_dec a b); split; intros; try done; lra.
Qed.

Lemma Reqb_true (a b : R) : Reqb a b = true <-> a = b.
Proof. unfold Reqb. destruct (Req_EM_T a b); split; intros; try done. Qed.

Lemma Reqb_false (a b : R) : Reqb a b = false <-> a <> b.
Proof. unfold Reqb. destruct (Req_EM_T a b); split; intros; try done. Qed.

(** Case analysis on every comparison in the goal. *)
Ltac rcases :=
  repeat match goal with
  | |- context [Rltb ?a ?b] =>
      let E := fresh "E" in
      destruct (Rltb a b) eqn:E;
      [apply Rltb_true in E | apply Rltb_false in E]
  | |- context [Rleb ?a ?b] =>
      let E := fresh "E" in
      destruct (Rleb a b) eqn:E;
      [apply Rleb_true in E | apply Rleb_false in E]
  | |- context [Reqb ?a ?b] =>
      let E := fresh "E" in
      destruct (Reqb a b) eqn:E;
      [apply Reqb_true in E | apply Reqb_false in E]
  end.

(** ** Construction *)

Lemma constructor_ok (w h : R) (res : Z) (f : t) :
  constructor w h res = Ok f ->
  resolution f = res /\ timeStep f = 0%Z /\
  grid f = replicate (Z.to_nat (res * res)) initial_cell.
Proof.
  unfold constructor. destruct (array_length_ok (res * res)); [|done].
  intros [= <-]. done.
Qed.

(** C7, as the code has it: with [resolution = 0] the constructor returns
    normally, and the field it returns has resolution 0 and an empty grid;
    no error is raised. *)
Theorem constructor_zero_resolution (w h : R) :
  exists f : t,
    constructor w h 0 = Ok f /\ resolution f = 0%Z /\ grid f = [].
Proof. eexists. split; [reflexivity|]. done. Qed.

(** C7, as the claim states it, fails: at width 800, height 600 and
    resolution 0 the constructor does not throw. *)
Lemma constructor_zero_resolution_not_rejected :
  ~ (exists e : JsError, constructor 800 600 0 = Throw e).
Proof. intros [e He]. discriminate He. Qed.

(** ** clear *)

(** C8: [clear()] sets the energy, frequency, color and phase of every cell
    to 0, 440, [0,0,0] and 0, and leaves the velocity and lastActive of every
    cell, the length of the grid and every other field of the wave field as
    they were. *)
Theorem clear_frame (f : t) :
  length (grid (clear f)) = length (grid f) /\
  timeStep (clear f) = timeStep f /\
  resolution (clear f) = resolution f /\
  width (clear f) = width f /\ height (clear f) = height f /\
  cellWidth (clear f) = cellWidth f /\ cellHeight (clear f) = cellHeight f /\
  decayRate (clear f) = decayRate f /\
  propagationSpeed (clear f) = propagationSpeed f /\
  maxVelocity (clear f) = maxVelocity f /\
  forall (i : nat) (cell : Cell),
    grid f !! i = Some cell ->
    exists cell' : Cell,
      grid (clear f) !! i = Some cell' /\
      energy cell' = 0 /\ frequency cell' = 440 /\
      color cell' = mkColor 0 0 0 /\ phase cell' = 0 /\
      velocity cell' = velocity cell /\ lastActive cell' = lastActive cell.
Proof.
  repeat split; try done.
  - unfold clear; simpl. by rewrite length_map.
  - intros i cell Hi. exists (clear_cell cell). split; [|done].
    unfold clear; simpl. by rewrite list_lookup_fmap, Hi.
Qed.

(** ** Grid and world coordinates *)

Lemma floor_cell_center (k : Z) (s : R) :
  0 < s -> Math_floor ((IZR k * s + s / 2) / s) = k.
Proof.
  intros Hs. unfold Math_floor. apply Zfloor_eq.
  replace ((IZR k * s + s / 2) / s) with (IZR k + / 2) by (field; lra).
  lra.
Qed.

(** C9: for integers [gx] and [gy] and positive cell dimensions, converting
    the center of cell [(gx, gy)] back to grid coordinates gives [(gx, gy)]. *)
Theorem worldToGrid_gridToWorld (f : t) (gx gy : Z) :
  0 < cellWidth f -> 0 < cellHeight f ->
  worldToGrid f (X (gridToWorld f (IZR gx) (IZR gy)))
                (Y (gridToWorld f (IZR gx) (IZR gy))) = (gx, gy).
Proof.
  intros Hw Hh. unfold worldToGrid, gridToWorld; simpl.
  by rewrite !floor_cell_center.
Qed.

(** ** Loops *)

Lemma foldM_app {A S : Type} (body : S -> A -> Result S) (l1 l2 : list A) (s : S) :
  foldM body (l1 ++ l2) s = try s' <- foldM body l1 s in foldM body l2 s'.
Proof.
  revert s. induction l1 as [|a l1 IH]; intros s; simpl; [done|].
  destruct (body s a); simpl; [apply IH|done].
Qed.

Lemma foldM_map {A B S : Type} (body : S -> B -> Result S) (h : A -> B)
    (l : list A) (s : S) :
  foldM (fun s a => body s (h a)) l s = foldM body (map h l) s.
Proof.
  revert s. induction l as [|a l IH]; intros s; simpl; [done|].
  destruct (body s (h a)); simpl; [apply IH|done].
Qed.

Lemma foldM_nested {A B S : Type} (body : S -> B -> Result S) (h : A -> list B)
    (l : list A) (s : S) :
  foldM (fun s a => foldM body (h a) s) l s = foldM body (flat_map h l) s.
Proof.
  revert s. induction l as [|a l IH]; intros s; simpl; [done|].
  rewrite foldM_app. destruct (foldM body (h a) s); simpl; [apply IH|done].
Qed.

Lemma foldM_ext {A S : Type} (body1 body2 : S -> A -> Result S) (l : list A) (s : S) :
  (forall s a, body1 s a = body2 s a) -> foldM body1 l s = foldM body2 l s.
Proof.
  intros Hext. revert s. induction l as [|a l IH]; intros s; simpl; [done|].
  rewrite Hext. destruct (body2 s a); simpl; [apply IH|done].
Qed.

(** A loop whose body preserves an invariant and does not throw under it
    runs to its end and establishes the invariant. *)
Lemma foldM_invariant {A S : Type} (P : S -> Prop) (Q : A -> Prop)
    (body : S -> A -> Result S) (l : list A) (s : S) :
  P s -> Forall Q l ->
  (forall s a, P s -> Q a -> exists s', body s a = Ok s' /\ P s') ->
  exists s', foldM body l s = Ok s' /\ P s'.
Proof.
  intros Hs Hl Hbody. revert s Hs.
  induction Hl as [|a l Ha Hl IH]; intros s Hs; simpl; [by exists s|].
  destruct (Hbody s a Hs Ha) as (s1 & -> & Hs1). simpl. by apply IH.
Qed.

(** The rows of a square grid, one after the other, are the indices
    [0 .. res * res - 1]. *)
Lemma row_major_indices (res : Z) (n : nat) :
  (0 <= res)%Z ->
  flat_map (fun y => map (fun x => y * res + x)%Z (seqZ 0 res))
           (seqZ 0 (Z.of_nat n))
  = seqZ 0 (Z.of_nat n * res).
Proof.
  intros Hres. induction n as [|n IH].
  - done.
  - rewrite seqZ_S, flat_map_app, IH. simpl. rewrite app_nil_r.
    replace (Z.of_nat (S n) * res)%Z with (Z.of_nat n * res + res)%Z by lia.
    rewrite seqZ_app by lia. f_equal.
    replace (0 + Z.of_nat n * res)%Z with (Z.of_nat n * res + 0)%Z by lia.
    rewrite <- (fmap_add_seqZ (Z.of_nat n * res) 0 res).
    apply map_ext. intros x. lia.
Qed.

Lemma grid_indices (res : Z) :
  (0 <= res)%Z ->
  flat_map (fun y => map (fun x => y * res + x)%Z (seqZ 0 res)) (seqZ 0 res)
  = seqZ 0 (res * res).
Proof.
  intros Hres. pose proof (row_major_indices res (Z.to_nat res) Hres) as H.
  by rewrite Z2Nat.id in H.
Qed.

(** ** update *)

Lemma array_get_nat {A : Type} (l : list A) (a : Z) :
  (0 <= a)%Z -> array_get l a = l !! Z.to_nat a.
Proof. intros Ha. unfold array_get. by destruct (Z.ltb_spec a 0); [lia|]. Qed.

(** One loop of [update_at] over distinct indices of the grid: the visited
    cells of [this.grid] get their phase write, the visited cells of
    [newGrid] get the decayed energy and velocity. *)
Lemma update_at_fold (f : t) (dt : R) (N : nat) (l : list Z) :
  NoDup l -> Forall (fun a => (0 <= a < Z.of_nat N)%Z) l ->
  forall g ng : list Cell, length g = N -> length ng = N ->
  exists g' ng' : list Cell,
    foldM (update_at f dt) l (g, ng) = Ok (g', ng') /\
    length g' = N /\ length ng' = N /\
    forall (i : nat) (c nc : Cell), g !! i = Some c -> ng !! i = Some nc ->
      g' !! i = Some (if decide (Z.of_nat i ∈ l) then advance_phase dt c else c) /\
      ng' !! i = Some (if decide (Z.of_nat i ∈ l)
                       then decay_cell f dt (advance_phase dt c) nc else nc).
Proof.
  induction 1 as [|a l Ha Hl IH]; intros Hr g ng Hg Hng.
  - exists g, ng. simpl. repeat split; done.
  - apply Forall_cons in Hr as [Hra Hr].
    simpl foldM. unfold update_at at 1. simpl.
    rewrite !array_get_nat by lia.
    destruct (lookup_lt_is_Some_2 g (Z.to_nat a)) as [c0 Hc0]; [lia|].
    destruct (lookup_lt_is_Some_2 ng (Z.to_nat a)) as [nc0 Hnc0]; [lia|].
    rewrite Hc0, Hnc0. simpl.
    destruct (IH Hr (<[Z.to_nat a := advance_phase dt c0]> g)
                 (<[Z.to_nat a := decay_cell f dt (advance_phase dt c0) nc0]> ng))
      as (g' & ng' & Hfold & Hg' & Hng' & Hpt);
      [by rewrite length_insert..|].
    exists g', ng'. repeat split; try done.
    + destruct (decide (i = Z.to_nat a)) as [->|Hne].
      * rewrite Z2Nat.id in * by lia.
        destruct (Hpt (Z.to_nat a) (advance_phase dt c0)
                      (decay_cell f dt (advance_phase dt c0) nc0)) as [-> _];
          [rewrite list_lookup_insert_eq by lia; done..|].
        rewrite Z2Nat.id by lia.
        rewrite decide_False by done.
        rewrite decide_True by (apply elem_of_cons; by left).
        congruence.
      * destruct (Hpt i c nc) as [-> _];
          [by rewrite list_lookup_insert_ne..|].
        f_equal. destruct (decide (Z.of_nat i ∈ l)).
        -- by rewrite decide_True by (apply elem_of_cons; by right).
        -- rewrite decide_False; [done|].
           rewrite elem_of_cons. intros [?|?]; [lia|done].
    + destruct (decide (i = Z.to_nat a)) as [->|Hne].
      * destruct (Hpt (Z.to_nat a) (advance_phase dt c0)
                      (decay_cell f dt (advance_phase dt c0) nc0)) as [_ ->];
          [rewrite list_lookup_insert_eq by lia; done..|].
        rewrite Z2Nat.id by lia.
        rewrite decide_False by done.
        rewrite decide_True by (apply elem_of_cons; by left).
        congruence.
      * destruct (Hpt i c nc) as [_ ->];
          [by rewrite list_lookup_insert_ne..|].
        f_equal. destruct (decide (Z.of_nat i ∈ l)).
        -- by rewrite decide_True by (apply elem_of_cons; by right).
        -- rewrite decide_False; [done|].
           rewrite elem_of_cons. intros [?|?]; [lia|done].
Qed.

Lemma copy_cell_id (cell : Cell) : copy_cell cell = cell.
Proof. by destruct cell as [? ? ? ? ? []]. Qed.

Lemma update_loops_ok (f : t) (dt : R) :
  grid_sized f ->
  exists g' ng' : list Cell,
    update_loops f dt = Ok (g', ng') /\
    length ng' = length (grid f) /\
    forall (i : nat) (c : Cell), grid f !! i = Some c ->
      ng' !! i = Some (updated_cell f dt c) /\
      g' !! i = Some (if (0 <=? resolution f)%Z then advance_phase dt c else c).
Proof.
  intros Hsz. unfold update_loops, updated_cell.
  destruct (Z.leb_spec 0 (resolution f)) as [Hres|Hres].
  - rewrite (foldM_ext _ (fun st y =>
      foldM (update_at f dt)
            (map (fun x => y * resolution f + x)%Z (seqZ 0 (resolution f))) st))
      by (intros; apply foldM_map).
    rewrite (foldM_nested (update_at f dt)).
    rewrite grid_indices by done.
    destruct (update_at_fold f dt (length (grid f))
                (seqZ 0 (resolution f * resolution f))
                (NoDup_seqZ _ _)) with (g := grid f) (ng := map copy_cell (grid f))
      as (g' & ng' & Hfold & Hg' & Hng' & Hpt).
    + apply Forall_seqZ. intros a Ha. red in Hsz. lia.
    + done.
    + by rewrite length_map.
    + exists g', ng'. repeat split; try done.
      * destruct (Hpt i c (copy_cell c)) as [_ ->];
          [done|by rewrite list_lookup_fmap, H|].
        rewrite decide_True; [done|].
        apply elem_of_seqZ. apply lookup_lt_Some in H. red in Hsz. lia.
      * destruct (Hpt i c (copy_cell c)) as [-> _];
          [done|by rewrite list_lookup_fmap, H|].
        rewrite decide_True; [done|].
        apply elem_of_seqZ. apply lookup_lt_Some in H. red in Hsz. lia.
  - rewrite seqZ_nil by lia. simpl.
    exists (grid f), (map copy_cell (grid f)). repeat split; try done.
    + by rewrite length_map.
    + by rewrite list_lookup_fmap, H.
Qed.

(** [update] does not throw on a grid of the right size, and leaves, for
    every cell of the old grid, its [updated_cell] in the new grid. *)
Lemma update_ok (f : t) (dt : R) :
  grid_sized f ->
  exists f' : t,
    update f dt = Ok f' /\
    resolution f' = resolution f /\ decayRate f' = decayRate f /\
    cellWidth f' = cellWidth f /\ cellHeight f' = cellHeight f /\
    timeStep f' = (timeStep f + 1)%Z /\
    length (grid f') = length (grid f) /\
    forall (i : nat) (c : Cell), grid f !! i = Some c ->
      grid f' !! i = Some (updated_cell f dt c).
Proof.
  intros Hsz. unfold update.
  destruct (update_loops_ok (set_timeStep f (timeStep f + 1)) dt Hsz)
    as (g' & ng' & -> & Hlen & Hpt).
  simpl. eexists. split; [done|]. simpl. repeat split; try done.
  intros i c Hc. by destruct (Hpt i c Hc) as [-> _].
Qed.

Lemma updated_cell_phase (f : t) (dt : R) (c : Cell) :
  phase (updated_cell f dt c) = phase c.
Proof. unfold updated_cell. by destruct (0 <=? resolution f)%Z. Qed.

(** The decay factor [0.98 ** (deltaTime * 60)]. *)
Lemma ln_098_neg : ln 0.98 < 0.
Proof. rewrite <- ln_1. apply ln_increasing; lra. Qed.

Lemma decay_factor_bounds (dt : R) : 0 <= dt -> 0 < Math_pow 0.98 (dt * 60) <= 1.
Proof.
  intros Hdt. unfold Math_pow, Rpower. split; [apply exp_pos|].
  rewrite <- exp_0. pose proof ln_098_neg.
  destruct (Req_dec dt 0) as [->|Hne].
  - rewrite !Rmult_0_l. lra.
  - left. apply exp_increasing. nra.
Qed.

Lemma decay_factor_lt (dt : R) : 0 < dt -> Math_pow 0.98 (dt * 60) < 1.
Proof.
  intros Hdt. unfold Math_pow, Rpower. rewrite <- exp_0. pose proof ln_098_neg.
  apply exp_increasing. nra.
Qed.

(** ** addWavePulse *)

Lemma out_of_grid_false (f : t) (gx gy : Z) :
  out_of_grid f gx gy = false <-> in_grid f gx gy.
Proof.
  unfold out_of_grid, in_grid. rewrite !Z.geb_leb.
  destruct (Z.ltb_spec gx 0), (Z.leb_spec (resolution f) gx),
    (Z.ltb_spec gy 0), (Z.leb_spec (resolution f) gy);
    simpl; split; intros; try done; first [lia | exfalso; lia].
Qed.

Lemma in_grid_index (f : t) (gx gy : Z) :
  in_grid f gx gy ->
  (0 <= cell_index f gx gy < resolution f * resolution f)%Z.
Proof.
  unfold in_grid, cell_index. intros [Hx Hy].
  assert (gy * resolution f <= (resolution f - 1) * resolution f)%Z
    by (apply Z.mul_le_mono_nonneg_r; lia).
  assert (0 <= gy * resolution f)%Z by (apply Z.mul_nonneg_nonneg; lia).
  lia.
Qed.

Lemma cell_index_inj (f : t) (gx gy gx' gy' : Z) :
  in_grid f gx gy -> in_grid f gx' gy' ->
  cell_index f gx gy = cell_index f gx' gy' -> gx = gx' /\ gy = gy'.
Proof.
  unfold in_grid, cell_index. intros [Hx Hy] [Hx' Hy'] Heq.
  assert (gy = gy') as ->; [|lia].
  destruct (Z.lt_trichotomy gy gy') as [Hlt|[->|Hlt]]; [|done|]; exfalso.
  - assert (1 * resolution f <= (gy' - gy) * resolution f)%Z
      by (apply Z.mul_le_mono_nonneg_r; lia). lia.
  - assert (1 * resolution f <= (gy - gy') * resolution f)%Z
      by (apply Z.mul_le_mono_nonneg_r; lia). lia.
Qed.

(** One iteration of the scan either leaves the grid alone, or is at a cell
    of the grid that lies on the wave front and writes that cell. *)
Lemma pulse_at_cases (f : t) (p : Pulse) (a : R) (gy : Z) (g : list Cell) (gx : Z) :
  pulse_at f p a gy g gx = Ok g \/
  (in_grid f gx gy /\ on_wave_front f p gx gy /\
   exists df : R,
     pulse_at f p a gy g gx =
     match array_get g (cell_index f gx gy) with
     | None => Throw TypeError
     | Some cell =>
         Ok (<[Z.to_nat (cell_index f gx gy) :=
                pulse_cell f p a (front_intensity f p gx gy) df cell]> g)
     end).
Proof.
  unfold pulse_at.
  destruct (out_of_grid f gx gy) eqn:Hout; [by left|].
  apply out_of_grid_false in Hout.
  fold (cell_distance f p gx gy).
  destruct (cell_distance f p gx gy <=? radius p) eqn:Hd; [|by left].
  apply Rleb_true in Hd.
  destruct (direction p a _ _) as [isIn df].
  destruct isIn; [|by left].
  unfold Math_abs.
  destruct (Rabs (cell_distance f p gx gy - radius p) <? radius p * 0.2) eqn:Hfront;
    [|by left].
  apply Rltb_true in Hfront.
  right. split; [done|]. split; [by split|]. by exists df.
Qed.

(** [addWavePulse] does not throw on a grid of the right size, and keeps
    every property of the cells that the write to a cell on the wave front
    keeps. *)
Lemma addWavePulse_invariant (f : t) (p : Pulse) (I : nat -> Cell -> Prop) :
  grid_sized f ->
  (forall i c, grid f !! i = Some c -> I i c) ->
  (forall gx gy c df,
     in_grid f gx gy -> on_wave_front f p gx gy ->
     I (Z.to_nat (cell_index f gx gy)) c ->
     I (Z.to_nat (cell_index f gx gy))
       (pulse_cell f p (normalize_angle (angle p)) (front_intensity f p gx gy) df c)) ->
  exists f' : t,
    addWavePulse f p = Ok f' /\
    resolution f' = resolution f /\ decayRate f' = decayRate f /\
    cellWidth f' = cellWidth f /\ cellHeight f' = cellHeight f /\
    timeStep f' = timeStep f /\
    length (grid f') = length (grid f) /\
    forall i c, grid f' !! i = Some c -> I i c.
Proof.
  intros Hsz Hinit Hwrite. unfold addWavePulse.
  set (P := fun g : list Cell =>
              length g = length (grid f) /\ forall i c, g !! i = Some c -> I i c).
  match goal with
  | |- context [foldM ?body ?ys (grid f)] =>
      destruct (foldM_invariant P (fun _ => True) body ys (grid f))
        as (g' & -> & Hlen & HI)
  end.
  - by split.
  - by apply Forall_true.
  - intros g gy Hg _.
    apply (foldM_invariant P (fun _ => True)); [done|by apply Forall_true|].
    clear g Hg. intros g gx [Hlen HI] _.
    destruct (pulse_at_cases f p (normalize_angle (angle p)) gy g gx)
      as [->|(Hin & Hfront & df & ->)]; [by exists g|].
    pose proof (in_grid_index f gx gy Hin) as Hidx.
    rewrite array_get_nat by lia.
    destruct (lookup_lt_is_Some_2 g (Z.to_nat (cell_index f gx gy))) as [c Hc].
    { rewrite Hlen. red in Hsz. lia. }
    rewrite Hc. eexists. split; [done|]. split.
    + by rewrite length_insert.
    + intros i c' Hi.
      destruct (decide (i = Z.to_nat (cell_index f gx gy))) as [->|Hne].
      * rewrite list_lookup_insert_eq in Hi by (rewrite Hlen; red in Hsz; lia).
        injection Hi as <-. apply Hwrite; try done. by apply HI.
      * rewrite list_lookup_insert_ne in Hi by done. by apply HI.
  - simpl. eexists. split; [done|]. by simpl.
Qed.

Lemma front_intensity_nonneg (f : t) (p : Pulse) (gx gy : Z) :
  0 <= intensity p -> on_wave_front f p gx gy -> 0 <= front_intensity f p gx gy.
Proof.
  intros Hi [_ Hfront]. unfold front_intensity.
  pose proof (Rabs_pos (cell_distance f p gx gy - radius p)) as Habs.
  apply Rmult_le_pos; [done|].
  assert (Rabs (cell_distance f p gx gy - radius p) / (radius p * 0.2) < 1);
    [|lra].
  apply (Rmult_lt_reg_r (radius p * 0.2)); [lra|].
  unfold Rdiv. rewrite Rmult_assoc, Rinv_l by lra. lra.
Qed.

Lemma pulse_cell_energy (f : t) (p : Pulse) (a ci df : R) (c : Cell) :
  energy (pulse_cell f p a ci df c) = Rmin 1 (energy c + ci).
Proof. done. Qed.

(** ** The invariant of reachable fields *)

Lemma constructor_inv (w h : R) (res : Z) (f : t) :
  constructor w h res = Ok f -> field_inv f.
Proof.
  unfold constructor. destruct (array_length_ok (res * res)); [|done].
  intros [= <-]. unfold field_inv, grid_sized, energy_bounded, dark; simpl.
  split; [by rewrite length_replicate|]. split; [done|].
  split; [|intros _]; intros i cell [-> _]%lookup_replicate; simpl; lra.
Qed.

Lemma clear_inv (f : t) : field_inv f -> field_inv (clear f).
Proof.
  intros (Hsz & Hrate & _ & _).
  unfold field_inv, grid_sized, energy_bounded, dark, clear; simpl.
  split; [by rewrite length_map|]. split; [done|].
  split; [|intros _]; intros i cell; rewrite list_lookup_fmap;
    destruct (grid f !! i); intros [= <-]; simpl; lra.
Qed.

Lemma getCell_Some (f : t) (gx gy : Z) (cell : Cell) :
  getCell f gx gy = Some cell ->
  in_grid f gx gy /\ grid f !! Z.to_nat (cell_index f gx gy) = Some cell.
Proof.
  unfold getCell. destruct (out_of_grid f gx gy) eqn:Hout; [done|].
  apply out_of_grid_false in Hout. intros Hget. split; [done|].
  pose proof (in_grid_index f gx gy Hout).
  by rewrite array_get_nat in Hget by lia.
Qed.

Lemma addEnergy_inv (f : t) (gx gy : Z) (amount fr : R) (col : Color) :
  0 <= amount -> field_inv f -> field_inv (addEnergy f gx gy amount fr col).
Proof.
  intros Hamount Hinv. unfold addEnergy.
  destruct (getCell f gx gy) as [cell|] eqn:Hget; [|done].
  apply getCell_Some in Hget as [Hin Hcell].
  destruct Hinv as (Hsz & Hrate & Hbound & Hdark).
  unfold field_inv, grid_sized, energy_bounded, dark; simpl.
  split; [by rewrite length_insert|]. split; [done|]. split.
  - intros i c Hi. apply list_lookup_insert_Some in Hi as [(<- & <- & _)|[_ Hi]].
    + simpl. unfold Math_min. specialize (Hbound _ _ Hcell).
      split; [apply Rmin_glb; lra|apply Rmin_l].
    + by apply (Hbound i).
  - intros Hneg. destruct Hin. lia.
Qed.

Lemma addWavePulse_inv (f : t) (p : Pulse) :
  0 <= intensity p -> field_inv f ->
  exists f' : t, addWavePulse f p = Ok f' /\ field_inv f'.
Proof.
  intros Hint (Hsz & Hrate & Hbound & Hdark).
  destruct (addWavePulse_invariant f p
              (fun _ c => 0 <= energy c <= 1 /\
                          ((resolution f < 0)%Z -> energy c = 0)) Hsz)
    as (f' & Hrun & Hres & Hrate' & _ & _ & _ & Hlen & HI).
  - intros i c Hc. split; [by apply (Hbound i)|]. intros Hneg. by apply (Hdark Hneg i).
  - intros gx gy c df Hin Hfront [Hc _].
    pose proof (front_intensity_nonneg f p gx gy Hint Hfront).
    rewrite pulse_cell_energy. split.
    + split; [apply Rmin_glb; lra|apply Rmin_l].
    + intros Hneg. destruct Hin. lia.
  - exists f'. split; [done|].
    unfold field_inv, grid_sized, energy_bounded, dark. rewrite Hres, Hlen, Hrate'.
    repeat split; try done.
    + by apply (HI i cell).
    + by apply (HI i cell).
    + intros Hneg i cell Hi. by apply (HI i cell).
Qed.

Lemma advance_phase_energy (dt : R) (c : Cell) :
  energy (advance_phase dt c) = energy c.
Proof. unfold advance_phase. by destruct (energy c >? 0.01). Qed.

Lemma updated_cell_energy (f : t) (dt : R) (c : Cell) :
  decayRate f = 0.98 -> (0 <= resolution f)%Z ->
  energy (updated_cell f dt c) =
  if energy c * Math_pow 0.98 (dt * 60) <? 0.01 then 0
  else energy c * Math_pow 0.98 (dt * 60).
Proof.
  intros Hrate Hres. unfold updated_cell.
  destruct (Z.leb_spec 0 (resolution f)); [|lia].
  unfold decay_cell; simpl. by rewrite advance_phase_energy, Hrate.
Qed.

Lemma updated_cell_energy_neg (f : t) (dt : R) (c : Cell) :
  (resolution f < 0)%Z -> energy (updated_cell f dt c) = energy c.
Proof.
  intros Hres. unfold updated_cell. by destruct (Z.leb_spec 0 (resolution f)); [lia|].
Qed.

Lemma update_inv (f : t) (dt : R) :
  0 <= dt -> field_inv f ->
  exists f' : t, update f dt = Ok f' /\ field_inv f'.
Proof.
  intros Hdt (Hsz & Hrate & Hbound & Hdark).
  destruct (update_ok f dt Hsz)
    as (f' & Hrun & Hres & Hrate' & _ & _ & _ & Hlen & Hpt).
  exists f'. split; [done|].
  assert (Hback : forall i c', grid f' !! i = Some c' ->
            exists c, grid f !! i = Some c /\ c' = updated_cell f dt c).
  { intros i c' Hi. destruct (lookup_lt_is_Some_2 (grid f) i) as [c Hc].
    - rewrite <- Hlen. by apply lookup_lt_Some in Hi.
    - exists c. split; [done|]. rewrite (Hpt i c Hc) in Hi. congruence. }
  unfold field_inv, grid_sized, energy_bounded, dark. rewrite Hres, Hlen, Hrate'.
  split; [done|]. split; [done|]. split.
  - intros i c' Hi. destruct (Hback i c' Hi) as (c & Hc & ->).
    specialize (Hbound i c Hc).
    destruct (Z.lt_ge_cases (resolution f) 0) as [Hneg|Hpos].
    + by rewrite updated_cell_energy_neg.
    + rewrite updated_cell_energy by done.
      pose proof (decay_factor_bounds dt Hdt).
      rcases; [lra|]. nra.
  - intros Hneg i c' Hi. destruct (Hback i c' Hi) as (c & Hc & ->).
    rewrite updated_cell_energy_neg by done. by apply (Hdark Hneg i).
Qed.

Lemma apply_op_inv (f : t) (op : Op) :
  field_inv f -> op_ok op -> exists f' : t, apply_op f op = Ok f' /\ field_inv f'.
Proof.
  intros Hinv Hop. destruct op as [gx gy amount fr col|p|dt|]; simpl in *.
  - eexists. split; [done|]. by apply addEnergy_inv.
  - by apply addWavePulse_inv.
  - by apply update_inv.
  - eexists. split; [done|]. by apply clear_inv.
Qed.

Lemma reachable_inv (f : t) : reachable f -> field_inv f.
Proof.
  induction 1 as [w h res f Hnew|f f' op _ IH Hop Hstep].
  - by apply constructor_inv in Hnew.
  - destruct (apply_op_inv f op IH Hop) as (f'' & Hrun & Hinv). congruence.
Qed.

Lemma run_inv (ops : list Op) (f : t) :
  field_inv f -> Forall op_ok ops ->
  exists f' : t, run ops f = Ok f' /\ field_inv f'.
Proof.
  intros Hinv Hops. apply (foldM_invariant field_inv op_ok); try done.
  intros. by apply apply_op_inv.
Qed.

(** C2: after the constructor and any sequence of calls to [addEnergy] with a
    nonnegative amount, [addWavePulse] with a nonnegative intensity, [update]
    with a nonnegative time step and [clear], no call throws, and after every
    call (every prefix of the sequence) the energy of every cell is between
    0 and 1. *)
Theorem energy_bounds (w h : R) (res : Z) (f0 : t) (ops : list Op) (n : nat) :
  constructor w h res = Ok f0 ->
  Forall op_ok ops ->
  exists f : t, run (take n ops) f0 = Ok f /\ energy_bounded f.
Proof.
  intros Hnew Hops.
  destruct (run_inv (take n ops) f0) as (f & Hrun & Hinv).
  - by apply constructor_inv in Hnew.
  - by apply Forall_take.
  - exists f. split; [done|]. apply Hinv.
Qed.

(** ** The phase write of update *)

(** The new grid carries the phase of the old one: the write to
    [cell.phase] lands on the cell of the grid that [update] replaces. *)
Lemma update_keeps_phase (f : t) (dt : R) :
  grid_sized f ->
  exists f' : t,
    update f dt = Ok f' /\
    forall (i : nat) (c : Cell), grid f !! i = Some c ->
      exists c' : Cell, grid f' !! i = Some c' /\ phase c' = phase c.
Proof.
  intros Hsz.
  destruct (update_ok f dt Hsz) as (f' & Hrun & _ & _ & _ & _ & _ & _ & Hpt).
  exists f'. split; [done|]. intros i c Hc.
  exists (updated_cell f dt c). split; [by apply Hpt|apply updated_cell_phase].
Qed.

(** The advanced phase is in the cells of the replaced grid. *)
Lemma update_discarded_phase (f : t) (dt : R) :
  grid_sized f -> (0 <= resolution f)%Z ->
  exists g : list Cell,
    update_discarded f dt = Ok g /\
    forall (i : nat) (c : Cell), grid f !! i = Some c ->
      g !! i = Some (advance_phase dt c).
Proof.
  intros Hsz Hres. unfold update_discarded.
  destruct (update_loops_ok (set_timeStep f (timeStep f + 1)) dt Hsz)
    as (g' & ng' & -> & _ & Hpt).
  simpl. exists g'. split; [done|]. intros i c Hc.
  destruct (Hpt i c Hc) as [_ ->]. simpl.
  by destruct (Z.leb_spec 0 (resolution f)); [|lia].
Qed.

Lemma PI_gt_3 : 3 < PI.
Proof. pose proof PI2_3_2. lra. Qed.

Lemma rem_small (a b : R) : 0 <= a < b -> rem a b = a.
Proof.
  intros [Ha Hb]. unfold rem, trunc.
  assert (0 <= a / b < 1) as [H0 H1].
  { split.
    - unfold Rdiv. apply Rmult_le_pos; [lra|].
      left. apply Rinv_0_lt_compat. lra.
    - apply (Rmult_lt_reg_r b); [lra|].
      unfold Rdiv. rewrite Rmult_assoc, Rinv_l by lra. lra. }
  destruct (0 <=? a / b) eqn:E; [|apply Rleb_false in E; lra].
  rewrite (Zfloor_eq 0) by (simpl; lra). simpl. lra.
Qed.

(** C1 at a failing input: a 1 x 1 field, [addEnergy(0, 0, 0.5, 440,
    [255, 0, 0])], then [update(0.1)].  The cell has energy 0.5 > 0.01,
    frequency 440 and phase 0 when [update] is called; in the grid after
    [update] its phase is still 0, while the phase advanced by
    [deltaTime * frequency / 20] modulo 2 PI is 2.2. *)
Theorem update_phase_failing_input :
  exists (f0 f2 : t) (c1 c2 : Cell),
    constructor 100 100 1 = Ok f0 /\
    grid (addEnergy f0 0 0 0.5 440 (mkColor 255 0 0)) !! 0%nat = Some c1 /\
    energy c1 = 0.5 /\ frequency c1 = 440 /\ phase c1 = 0 /\
    update (addEnergy f0 0 0 0.5 440 (mkColor 255 0 0)) 0.1 = Ok f2 /\
    grid f2 !! 0%nat = Some c2 /\
    phase c2 = 0 /\
    rem (phase c1 + 0.1 * frequency c1 / 20) (PI * 2) = 2.2.
Proof.
  eexists. 
  destruct (update_keeps_phase
              (addEnergy
                 {| width := 100; height := 100; resolution := 1;
                    cellWidth := 100 / 1; cellHeight := 100 / 1;
                    grid := [initial_cell]; decayRate := 0.98;
                    propagationSpeed := 0.3; timeStep := 0; maxVelocity := 5 |}
                 0 0 0.5 440 (mkColor 255 0 0)) 0.1)
    as (f2 & Hrun & Hpt); [done|].
  destruct (Hpt 0%nat _ eq_refl) as (c2 & Hc2 & Hphase).
  exists f2. eexists. exists c2.
  split; [reflexivity|]. split; [reflexivity|].
  assert (Hfreq : blend 440 440 (0.5 / (0 + 0.5)) = 440) by (unfold blend; lra).
  assert (He : Rmin 1 (0 + 0.5) = 0.5) by (rewrite Rmin_right; lra).
  simpl. unfold Math_min.
  destruct (0.5 >? 0.05) eqn:E; [|apply Rltb_false in E; lra].
  repeat split; try done.
  rewrite Hfreq. pose proof PI_gt_3. rewrite rem_small; lra.
Qed.

(** ** The ring of a pulse *)

Lemma on_wave_front_dec (f : t) (p : Pulse) (gx gy : Z) :
  {on_wave_front f p gx gy} + {~ on_wave_front f p gx gy}.
Proof.
  unfold on_wave_front.
  destruct (Rle_dec (cell_distance f p gx gy) (radius p));
    destruct (Rlt_dec (Rabs (cell_distance f p gx gy - radius p)) (radius p * 0.2));
    first [by left | right; intros []; done].
Qed.

(** A pulse leaves every cell off the ring as it was. *)
Lemma addWavePulse_off_ring (f : t) (p : Pulse) :
  grid_sized f ->
  exists f' : t,
    addWavePulse f p = Ok f' /\
    forall (gx gy : Z) (cell' : Cell),
      getCell f' gx gy = Some cell' ->
      ~ on_wave_front f p gx gy ->
      getCell f gx gy = Some cell'.
Proof.
  intros Hsz.
  destruct (addWavePulse_invariant f p
              (fun i c => forall gx gy,
                 in_grid f gx gy -> i = Z.to_nat (cell_index f gx gy) ->
                 ~ on_wave_front f p gx gy -> grid f !! i = Some c) Hsz)
    as (f' & Hrun & Hres & _ & _ & _ & _ & Hlen & HI).
  - done.
  - intros gx gy c df Hin Hfront _ gx' gy' Hin' Heq Hoff. exfalso.
    pose proof (in_grid_index f gx gy Hin).
    pose proof (in_grid_index f gx' gy' Hin').
    apply Z2Nat.inj in Heq; [|lia..].
    apply cell_index_inj in Heq as [-> ->]; done.
  - exists f'. split; [done|]. intros gx gy cell' Hget Hoff.
    apply getCell_Some in Hget as [Hin Hcell].
    assert (Hin0 : in_grid f gx gy) by (unfold in_grid in *; by rewrite <- Hres).
    assert (Hidx : cell_index f' gx gy = cell_index f gx gy)
      by (unfold cell_index; by rewrite Hres).
    rewrite Hidx in Hcell.
    pose proof (in_grid_index f gx gy Hin0).
    unfold getCell.
    destruct (out_of_grid f gx gy) eqn:Hout.
    + apply out_of_grid_false in Hin0. congruence.
    + rewrite array_get_nat by lia. by apply (HI _ _ Hcell gx gy).
Qed.

(** C3: on a field whose cells all have energy 0, [addWavePulse] returns,
    and in the field it leaves, every cell whose center is at a distance [d]
    from the origin of the pulse with [|d - radius| >= 0.2 * radius] has
    energy 0; a cell with positive energy has [|d - radius| < 0.2 * radius]
    and [d <= radius].  This holds for every intensity. *)
Theorem pulse_ring (f : t) (p : Pulse) :
  grid_sized f -> dark f ->
  exists f' : t,
    addWavePulse f p = Ok f' /\
    forall (gx gy : Z) (cell' : Cell),
      getCell f' gx gy = Some cell' ->
      (0.2 * radius p <= Rabs (cell_distance f p gx gy - radius p) ->
       energy cell' = 0) /\
      (0 < energy cell' ->
       Rabs (cell_distance f p gx gy - radius p) < 0.2 * radius p /\
       cell_distance f p gx gy <= radius p).
Proof.
  intros Hsz Hdark.
  destruct (addWavePulse_off_ring f p Hsz) as (f' & Hrun & Hoff).
  exists f'. split; [done|]. intros gx gy cell' Hget.
  assert (Hzero : ~ on_wave_front f p gx gy -> energy cell' = 0).
  { intros Hno. specialize (Hoff gx gy cell' Hget Hno).
    apply getCell_Some in Hoff as [_ Hcell]. by apply (Hdark _ _ Hcell). }
  split.
  - intros Hfar. apply Hzero. intros [_ Hnear]. lra.
  - intros Hpos. destruct (on_wave_front_dec f p gx gy) as [[Hd Hnear]|Hno].
    + split; [lra|done].
    + rewrite Hzero in Hpos by done. lra.
Qed.

(** ** Decay *)

(** One [update] with a positive time step: every energy is multiplied by
    the decay factor, or set to 0. *)
Lemma update_decay (f : t) (dt : R) :
  field_inv f -> 0 < dt ->
  exists f' : t,
    update f dt = Ok f' /\ field_inv f' /\
    length (grid f') = length (grid f) /\
    forall (i : nat) (c : Cell), grid f !! i = Some c ->
      exists c' : Cell,
        grid f' !! i = Some c' /\
        0 <= energy c' /\
        energy c' <= energy c * Math_pow 0.98 (dt * 60) /\
        energy c' <= energy c /\
        (energy c < 0.01 -> energy c' = 0).
Proof.
  intros Hinv Hdt.
  destruct (update_inv f dt) as (f' & Hrun & Hinv'); [lra|done|].
  destruct Hinv as (Hsz & Hrate & Hbound & Hdark).
  destruct (update_ok f dt Hsz) as (f'' & Hrun' & _ & _ & _ & _ & _ & Hlen & Hpt).
  assert (f'' = f') as -> by congruence.
  exists f'. split; [done|]. split; [done|]. split; [done|].
  intros i c Hc. exists (updated_cell f dt c). split; [by apply Hpt|].
  specialize (Hbound i c Hc).
  pose proof (decay_factor_bounds dt (Rlt_le _ _ Hdt)) as [Hk0 Hk1].
  destruct (Z.lt_ge_cases (resolution f) 0) as [Hneg|Hpos].
  - rewrite updated_cell_energy_neg by done.
    rewrite (Hdark Hneg i c Hc). lra.
  - rewrite updated_cell_energy by done. rcases; nra.
Qed.

Lemma updates_S (dt : R) (n : nat) (f : t) :
  updates dt (S n) f = try f1 <- update f dt in updates dt n f1.
Proof. done. Qed.

Lemma updates_add (dt : R) (n m : nat) (f : t) :
  updates dt (n + m) f = try fn <- updates dt n f in updates dt m fn.
Proof. unfold updates, run. by rewrite replicate_add, foldM_app. Qed.

Lemma updates_bound (dt : R) (n : nat) (f : t) (b : R) :
  field_inv f -> 0 < dt ->
  (forall i c, grid f !! i = Some c -> energy c <= b) ->
  exists fn : t,
    updates dt n f = Ok fn /\ field_inv fn /\
    forall i c, grid fn !! i = Some c ->
      energy c <= b * Math_pow 0.98 (dt * 60) ^ n.
Proof.
  intros Hinv Hdt. revert f b Hinv.
  induction n as [|n IH]; intros f b Hinv Hb.
  - exists f. split; [done|]. split; [done|].
    intros i c Hc. simpl. rewrite Rmult_1_r. eauto.
  - rewrite updates_S.
    destruct (update_decay f dt Hinv Hdt) as (f1 & -> & Hinv1 & Hlen & Hpt).
    simpl bind.
    destruct (IH f1 (b * Math_pow 0.98 (dt * 60)) Hinv1) as (fn & Hrun & Hinvn & Hbn).
    + intros i c1 Hc1.
      destruct (lookup_lt_is_Some_2 (grid f) i) as [c Hc].
      { rewrite <- Hlen. by apply lookup_lt_Some in Hc1. }
      destruct (Hpt i c Hc) as (c1' & Hc1' & _ & Hle & _).
      assert (c1' = c1) as -> by congruence.
      pose proof (decay_factor_bounds dt (Rlt_le _ _ Hdt)).
      specialize (Hb i c Hc). nra.
    + exists fn. split; [done|]. split; [done|]. intros i c Hc.
      specialize (Hbn i c Hc). simpl. lra.
Qed.

Lemma update_small_dark (dt : R) (f : t) :
  field_inv f -> 0 < dt ->
  (forall i c, grid f !! i = Some c -> energy c < 0.01) ->
  exists f1 : t, update f dt = Ok f1 /\ field_inv f1 /\ dark f1.
Proof.
  intros Hinv Hdt Hsmall.
  destruct (update_decay f dt Hinv Hdt) as (f1 & Hrun & Hinv1 & Hlen & Hpt).
  exists f1. split; [done|]. split; [done|]. intros i c1 Hc1.
  destruct (lookup_lt_is_Some_2 (grid f) i) as [c Hc].
  { rewrite <- Hlen. by apply lookup_lt_Some in Hc1. }
  destruct (Hpt i c Hc) as (c1' & Hc1' & _ & _ & _ & Hz).
  assert (c1' = c1) as -> by congruence. apply Hz. by apply (Hsmall i).
Qed.

Lemma updates_dark (dt : R) (n : nat) (f : t) :
  field_inv f -> 0 < dt -> dark f ->
  exists fn : t, updates dt n f = Ok fn /\ field_inv fn /\ dark fn.
Proof.
  intros Hinv Hdt Hdark.
  destruct (updates_bound dt n f 0 Hinv Hdt) as (fn & Hrun & Hinvn & Hbn).
  - intros i c Hc. rewrite (Hdark i c Hc). lra.
  - exists fn. split; [done|]. split; [done|].
    intros i c Hc. specialize (Hbn i c Hc).
    destruct Hinvn as (_ & _ & Hbound & _). specialize (Hbound i c Hc). lra.
Qed.

(** C4: from a reachable field, with no call other than [update(deltaTime)]
    for a positive [deltaTime], the calls never throw, the energy of every
    cell after one more update is at most its energy before it, and from
    some number of updates on every cell has energy exactly 0. *)
Theorem decay_monotone_to_zero (f : t) (dt : R) :
  reachable f -> 0 < dt ->
  (forall n : nat,
     exists fn fn' : t,
       updates dt n f = Ok fn /\ updates dt (S n) f = Ok fn' /\
       length (grid fn') = length (grid fn) /\
       forall (i : nat) (c c' : Cell),
         grid fn !! i = Some c -> grid fn' !! i = Some c' ->
         energy c' <= energy c) /\
  (exists N : nat,
     forall n : nat, (N <= n)%nat ->
       exists fn : t, updates dt n f = Ok fn /\ dark fn).
Proof.
  intros Hreach Hdt. apply reachable_inv in Hreach as Hinv.
  assert (Hone : forall i c, grid f !! i = Some c -> energy c <= 1).
  { intros i c Hc. destruct Hinv as (_ & _ & Hbound & _). by apply (Hbound i c). }
  split.
  - intros n.
    destruct (updates_bound dt n f 1 Hinv Hdt Hone) as (fn & Hrun & Hinvn & _).
    destruct (update_decay fn dt Hinvn Hdt) as (fn' & Hrun' & _ & Hlen & Hpt).
    exists fn, fn'. split; [done|]. split.
    { replace (S n) with (n + 1)%nat by lia.
      rewrite updates_add, Hrun. simpl. unfold updates, run. simpl.
      by rewrite Hrun'. }
    split; [done|]. intros i c c' Hc Hc'.
    destruct (Hpt i c Hc) as (c'' & Hc'' & _ & _ & Hle & _).
    by assert (c'' = c') as -> by congruence.
  - pose proof (decay_factor_bounds dt (Rlt_le _ _ Hdt)) as [Hk0 _].
    pose proof (decay_factor_lt dt Hdt) as Hk1.
    destruct (pow_lt_1_zero (Math_pow 0.98 (dt * 60))) with (y := 0.01)
      as [N0 HN0].
    { rewrite Rabs_pos_eq; lra. }
    { lra. }
    exists (S N0). intros n Hn.
    replace n with (N0 + S (n - S N0))%nat by lia.
    rewrite updates_add.
    destruct (updates_bound dt N0 f 1 Hinv Hdt Hone) as (f0 & -> & Hinv0 & Hb0).
    simpl bind. rewrite updates_S.
    destruct (update_small_dark dt f0 Hinv0 Hdt) as (f1 & Hrun1 & Hinv1 & Hdark1).
    { intros i c Hc. specialize (Hb0 i c Hc).
      specialize (HN0 N0 (Nat.le_refl _)).
      rewrite Rabs_pos_eq in HN0 by (apply pow_le; lra). lra. }
    rewrite Hrun1. simpl bind.
    destruct (updates_dark dt (n - S N0) f1 Hinv1 Hdt Hdark1) as (fn & Hrun & _ & Hd).
    by exists fn.
Qed.

(** ** snapToScale *)

Lemma Rltb_IZR (a b : Z) : (IZR a <? IZR b) = (a <? b)%Z.
Proof.
  destruct (Z.ltb_spec a b) as [H|H].
  - apply Rltb_true. by apply IZR_lt.
  - apply Rltb_false. by apply IZR_le.
Qed.

Lemma Rabs_sub_IZR (a b : Z) : Rabs (IZR a - IZR b) = IZR (Z.abs (a - b)).
Proof. by rewrite <- minus_IZR, <- abs_IZR. Qed.

Lemma below_lift (d : Z) (m : option Z) :
  Utils.below (IZR d) (IZR <$> m) = below_Z d m.
Proof. destruct m as [m|]; simpl; [apply Rltb_IZR|done]. Qed.

Lemma closest_step_lift (m : Z) (st : option Z * Z) (note : Z) :
  Utils.closest_step (IZR m) (lift_state st) note
  = lift_state (closest_step_Z m st note).
Proof.
  unfold Utils.closest_step, closest_step_Z, Math_abs.
  rewrite !Rabs_sub_IZR. destruct st as [[m0|] c]; simpl.
  - rewrite Rltb_IZR. destruct (Z.abs (m - note) <? m0)%Z; simpl;
      rewrite Rltb_IZR; by destruct (_ <? _)%Z.
  - rewrite Rltb_IZR. by destruct (_ <? _)%Z.
Qed.

Lemma closest_note_lift (m : Z) (pattern : list Z) :
  Utils.closest_note (IZR m) pattern = closest_note_Z m pattern.
Proof.
  unfold Utils.closest_note, closest_note_Z.
  change (None, 0%Z) with (lift_state (None, 0%Z)) at 1.
  generalize (@None Z, 0%Z). induction pattern as [|note pattern IH]; intros st.
  - done.
  - simpl. rewrite closest_step_lift. apply IH.
Qed.

(** At a note of the major scale the search returns that note. *)
Lemma closest_note_major (m : Z) :
  In m major -> Utils.closest_note (IZR m) major = m.
Proof.
  intros Hm. rewrite closest_note_lift.
  simpl in Hm. by repeat destruct Hm as [<-|Hm].
Qed.

(** The search returns the initial 0, a note of the pattern, or a note of
    the pattern an octave lower. *)
Lemma closest_step_note (s : R) (st : option R * Z) (note : Z) :
  (Utils.closest_step s st note).2 = st.2 \/
  (Utils.closest_step s st note).2 = note \/
  (Utils.closest_step s st note).2 = (note - 12)%Z.
Proof.
  unfold Utils.closest_step.
  destruct (Utils.below (Math_abs (s - IZR note)) st.1); simpl;
    repeat match goal with
    | |- context [Utils.below ?d ?m] => destruct (Utils.below d m)
    | |- context [Rltb ?a ?b] => destruct (Rltb a b)
    end; simpl; auto.
Qed.

Lemma closest_note_in_scale (s : R) (pattern : list Z) (Q : Z -> Prop) :
  Q 0%Z -> Forall (fun note => Q note /\ Q (note - 12)%Z) pattern ->
  Q (Utils.closest_note s pattern).
Proof.
  intros H0 Hpat. unfold Utils.closest_note.
  assert (Hst : Q (@None R, 0%Z).2) by done.
  revert Hst. generalize (@None R, 0%Z).
  induction Hpat as [|note pattern [Hn Hl] _ IH]; intros st Hst; simpl; [done|].
  apply IH. destruct (closest_step_note s st note) as [->|[->| ->]]; done.
Qed.

Lemma closest_note_major_mod (s : R) :
  In (Utils.closest_note s major mod 12)%Z major.
Proof.
  apply (closest_note_in_scale s major (fun n => In (n mod 12)%Z major)).
  - simpl. auto.
  - unfold major.
    repeat apply Forall_cons_2; try apply Forall_nil_2; split; vm_compute; tauto.
Qed.

(** Whole numbers of semitones. *)
Lemma floor_div_12 (k : Z) : Math_floor (IZR k / 12) = (k / 12)%Z.
Proof.
  unfold Math_floor. apply Zfloor_eq.
  pose proof (Z.div_mod k 12 ltac:(lia)) as Hdm.
  pose proof (Z.mod_pos_bound k 12 ltac:(lia)) as [Hlo Hhi].
  apply (f_equal IZR) in Hdm. rewrite plus_IZR, mult_IZR in Hdm.
  apply IZR_le in Hlo. apply IZR_lt in Hhi.
  lra.
Qed.

Lemma trunc_div_12 (k : Z) : trunc (IZR k / 12) = (k ÷ 12)%Z.
Proof.
  unfold trunc.
  destruct (0 <=? IZR k / 12) eqn:E;
    [apply Rleb_true in E|apply Rleb_false in E].
  - assert (0 <= k)%Z by (apply le_IZR; lra).
    rewrite Z.quot_div_nonneg by lia. apply floor_div_12.
  - assert (k < 0)%Z by (apply lt_IZR; lra).
    unfold Zceil.
    replace (- (IZR k / 12)) with (IZR (- k) / 12) by (rewrite opp_IZR; lra).
    pose proof (floor_div_12 (- k)) as Hf. unfold Math_floor in Hf. rewrite Hf.
    rewrite <- (Z.quot_div_nonneg (- k) 12) by lia.
    rewrite Z.quot_opp_l by lia. lia.
Qed.

Lemma rem_12 (k : Z) : rem (IZR k) 12 = IZR (Z.rem k 12).
Proof.
  unfold rem. rewrite trunc_div_12.
  pose proof (Z.quot_rem' k 12) as Hqr.
  apply (f_equal IZR) in Hqr. rewrite plus_IZR, mult_IZR in Hqr. lra.
Qed.

Lemma semitones_in_octave (k : Z) :
  rem (rem (IZR k) 12 + 12) 12 = IZR (k mod 12).
Proof.
  rewrite rem_12. rewrite <- plus_IZR. rewrite rem_12. f_equal.
  pose proof (Z.quot_rem' k 12).
  pose proof (Z.rem_bound_abs k 12 ltac:(lia)).
  rewrite Z.rem_mod_nonneg by lia.
  rewrite <- Z.add_mod_idemp_r, Z.mod_same, Z.add_0_r by lia.
  assert (Z.rem k 12 = k - 12 * (k ÷ 12))%Z as -> by lia.
  replace (k - 12 * (k ÷ 12))%Z with (k + (- (k ÷ 12)) * 12)%Z by lia.
  by rewrite Z.mod_add by lia.
Qed.

Lemma ln_2_pos : 0 < ln 2.
Proof. rewrite <- ln_1. apply ln_increasing; lra. Qed.

Lemma log2_note_frequency (k : Z) :
  12 * Math_log2 (note_frequency k / 440) = IZR k.
Proof.
  unfold note_frequency, Math_log2, Math_pow.
  replace (440 * Rpower 2 (IZR k / 12) / 440) with (Rpower 2 (IZR k / 12))
    by (field; lra).
  unfold Rpower. rewrite ln_exp. pose proof ln_2_pos. field. lra.
Qed.

(** Every value of [snapToScale] on the major scale is the frequency of a
    note of the scale. *)
Lemma snapToScale_note (f : R) :
  exists k : Z,
    In (k mod 12)%Z major /\ Utils.snapToScale f "major" = note_frequency k.
Proof.
  unfold Utils.snapToScale. eexists. split; [|reflexivity].
  change (Utils.scale_pattern "major") with major.
  rewrite Z.add_comm, Z.mod_add by lia. apply closest_note_major_mod.
Qed.

(** The frequency of a note of the major scale snaps to itself. *)
Lemma snapToScale_fixed (k : Z) :
  In (k mod 12)%Z major ->
  Utils.snapToScale (note_frequency k) "major" = note_frequency k.
Proof.
  intros Hk. unfold Utils.snapToScale.
  change (Utils.scale_pattern "major") with major.
  rewrite log2_note_frequency, floor_div_12, semitones_in_octave.
  rewrite closest_note_major by done.
  replace (k / 12 * 12 + k mod 12)%Z with k; [done|].
  pose proof (Z.div_mod k 12 ltac:(lia)). lia.
Qed.

(** C6: for every frequency [f > 0], snapping to the major scale twice gives
    the same frequency as snapping once. *)
Theorem snapToScale_idempotent (f : R) :
  0 < f ->
  Utils.snapToScale (Utils.snapToScale f "major") "major"
  = Utils.snapToScale f "major".
Proof.
  intros _. destruct (snapToScale_note f) as (k & Hk & ->).
  by apply snapToScale_fixed.
Qed.

(** ** emitWave *)

(** C10: on an active emitter [emitWave] returns a wave, and the emitter's
    [lastEmitTime] is the wave's [createdAt]; with the timestamp omitted or
    equal to 0 it is the value of the clock, with a nonzero timestamp it is
    the timestamp. *)
Theorem emitWave_timestamp (e : Emitter.t) (intensity : R) (timeStep : JsValue)
    (random now : R) :
  Emitter.active e = true ->
  exists wave : Emitter.Wave,
    Emitter.returned (Emitter.emitWave e intensity timeStep random now) = Some wave /\
    Emitter.lastEmitTime (Emitter.emitter (Emitter.emitWave e intensity timeStep random now))
    = Emitter.createdAt wave /\
    (timeStep = JsUndefined \/ timeStep = JsNumber 0 -> Emitter.createdAt wave = now) /\
    (forall n : R, timeStep = JsNumber n -> n <> 0 -> Emitter.createdAt wave = n).
Proof.
  intros Hactive. unfold Emitter.emitWave. rewrite Hactive. simpl.
  eexists. split; [reflexivity|]. simpl. split; [done|]. split.
  - intros [->| ->]; simpl; [done|]. by rewrite (proj2 (Reqb_true 0 0)).
  - intros n -> Hn. simpl. by rewrite (proj2 (Reqb_false n 0)).
Qed.

(** ** The lifecycle of a traveling wave *)

Import Emitter WaveRenderer Game.

Lemma renderer_keeps_false (w : Wave) :
  renderer_keeps w = false <->
  waveMaxRadius w <= waveRadius w \/ waveIntensity w <= 0.01.
Proof.
  unfold renderer_keeps. rewrite andb_false_iff, !Rltb_false. done.
Qed.

Lemma renderer_keeps_true (w : Wave) :
  renderer_keeps w = true <->
  waveRadius w < waveMaxRadius w /\ 0.01 < waveIntensity w.
Proof.
  unfold renderer_keeps. rewrite andb_true_iff, !Rltb_true. done.
Qed.

(** The renderer's pass over distinct references: every wave of the
    collection gets the writes of [grow], the others are untouched, and the
    new collection holds the references whose grown wave is kept. *)
Lemma updateTravelingWaves_spec (dt : R) (refs : list Ref) :
  NoDup refs ->
  forall st : Store,
  Forall (fun r => is_Some (st !! r)) refs ->
  length (updateTravelingWaves dt st refs).1 = length st /\
  (forall r w, st !! r = Some w ->
     (updateTravelingWaves dt st refs).1 !! r
     = Some (if decide (r ∈ refs) then grow dt w else w)) /\
  (forall r, r ∈ (updateTravelingWaves dt st refs).2 <->
     r ∈ refs /\ exists w, st !! r = Some w /\ renderer_keeps (grow dt w) = true).
Proof.
  induction 1 as [|r0 refs Hr0 Hnd IH]; intros st Hall.
  - simpl. split; [done|]. split; [done|].
    intros r. split; [by intros ?%elem_of_nil|by intros [?%elem_of_nil _]].
  - apply Forall_cons in Hall as [[w0 Hw0] Hall]. simpl. rewrite Hw0.
    assert (Hall' : Forall (fun r => is_Some (<[r0 := grow dt w0]> st !! r)) refs).
    { eapply Forall_impl; [exact Hall|]. intros r Hr. simpl in *.
      apply lookup_lt_is_Some. rewrite length_insert. by apply lookup_lt_is_Some. }
    destruct (IH (<[r0 := grow dt w0]> st) Hall') as (Hlen & Hst & Hrefs).
    rewrite length_insert in Hlen.
    assert (Hfst : (if renderer_keeps (grow dt w0)
                    then ((updateTravelingWaves dt (<[r0 := grow dt w0]> st) refs).1,
                          r0 :: (updateTravelingWaves dt (<[r0 := grow dt w0]> st) refs).2)
                    else updateTravelingWaves dt (<[r0 := grow dt w0]> st) refs).1
                   = (updateTravelingWaves dt (<[r0 := grow dt w0]> st) refs).1)
      by (by destruct (renderer_keeps _)).
    split; [by rewrite Hfst|]. split.
    + intros r w Hw. rewrite Hfst.
      destruct (decide (r = r0)) as [->|Hne].
      * rewrite (Hst r0 (grow dt w0)).
        -- rewrite decide_False by done.
           rewrite decide_True by (apply elem_of_cons; by left). congruence.
        -- apply list_lookup_insert_eq. by apply lookup_lt_Some in Hw0.
      * rewrite (Hst r w) by (by rewrite list_lookup_insert_ne).
        f_equal. destruct (decide (r ∈ refs)).
        -- by rewrite decide_True by (apply elem_of_cons; by right).
        -- rewrite decide_False; [done|].
           rewrite elem_of_cons. by intros [?|?].
    + intros r.
      assert (Hstep : forall w, st !! r = Some w -> r <> r0 ->
                <[r0 := grow dt w0]> st !! r = Some w)
        by (intros; by rewrite list_lookup_insert_ne).
      destruct (renderer_keeps (grow dt w0)) eqn:Hkeep; simpl;
        rewrite ?elem_of_cons, Hrefs; split.
      * intros [->|[Hin (w & Hw & Hk)]].
        -- split; [by left|]. by exists w0.
        -- split; [by right|]. exists w. split; [|done].
           rewrite list_lookup_insert_ne in Hw; [done|]. by intros ->.
      * intros [[->|Hin] (w & Hw & Hk)]; [by left|]. right.
        split; [done|]. exists w. split; [|done].
        apply Hstep; [done|]. by intros ->.
      * intros [Hin (w & Hw & Hk)]. split; [by right|]. exists w. split; [|done].
        rewrite list_lookup_insert_ne in Hw; [done|]. by intros ->.
      * intros [[->|Hin] (w & Hw & Hk)]; [congruence|].
        split; [done|]. exists w. split; [|done].
        apply Hstep; [done|]. by intros ->.
Qed.

(** The first part of C5: [updateTravelingWaves] drops a wave from the
    renderer's collection exactly when, after the growth of this tick, its
    radius is at least [maxRadius] or its intensity at most 0.01. *)
Lemma updateTravelingWaves_removal (dt : R) (st : Store) (refs : list Ref)
    (r : Ref) (w : Wave) :
  NoDup refs -> Forall (fun r => is_Some (st !! r)) refs ->
  r ∈ refs -> st !! r = Some w ->
  (updateTravelingWaves dt st refs).1 !! r = Some (grow dt w) /\
  (r ∉ (updateTravelingWaves dt st refs).2 <->
   waveMaxRadius (grow dt w) <= waveRadius (grow dt w) \/
   waveIntensity (grow dt w) <= 0.01).
Proof.
  intros Hnd Hall Hin Hw.
  destruct (updateTravelingWaves_spec dt refs Hnd st Hall) as (_ & Hst & Hrefs).
  split.
  - rewrite (Hst r w Hw). by rewrite decide_True.
  - rewrite <- renderer_keeps_false, Hrefs. split.
    + intros Hno. destruct (renderer_keeps (grow dt w)) eqn:Hk; [|done].
      exfalso. apply Hno. split; [done|]. by exists w.
    + intros Hk [_ (w' & Hw' & Hk')]. congruence.
Qed.

(** A wave that the game still holds and the renderer has dropped is never
    written again: while its radius is at most [maxRadius] and its intensity
    above 0.05, every tick sends it to [addWavePulse] and keeps it. *)
Lemma tick_orphan (w : Wave) (fld : WaveField.t) (dt : R) :
  0 <= dt -> waveRadius w <= waveMaxRadius w -> 0.05 < waveIntensity w ->
  field_inv fld ->
  exists fld' : WaveField.t,
    Game.update (mkGame [w] [] [0%nat] fld) dt
    = Ok (mkGame [w] [] [0%nat] fld', [0%nat]) /\
    field_inv fld'.
Proof.
  intros Hdt Hrad Hint Hinv. unfold Game.update. simpl.
  destruct (update_inv fld (Math_min dt 0.1)) as (fld1 & -> & Hinv1);
    [unfold Math_min; apply Rmin_glb; lra|done|].
  simpl. unfold pulse_wave. simpl.
  rewrite (proj2 (Rltb_true 0.05 (waveIntensity w))) by done.
  destruct (addWavePulse_inv fld1 (pulse_of w)) as (fld2 & -> & Hinv2);
    [simpl; lra|done|].
  simpl. exists fld2. split; [|done].
  unfold clean_up, game_keeps. simpl.
  rewrite (proj2 (Rleb_true (waveRadius w) (waveMaxRadius w))) by done.
  by rewrite (proj2 (Rltb_true 0.01 (waveIntensity w))) by lra.
Qed.

Lemma pulses_after_orphan (w : Wave) (dt : R) (n : nat) (fld : WaveField.t) :
  0 <= dt -> waveRadius w <= waveMaxRadius w -> 0.05 < waveIntensity w ->
  field_inv fld ->
  pulses_after n dt (mkGame [w] [] [0%nat] fld) = Ok [0%nat].
Proof.
  intros Hdt Hrad Hint. revert fld.
  induction n as [|n IH]; intros fld Hinv; simpl;
    destruct (tick_orphan w fld dt Hdt Hrad Hint Hinv) as (fld' & -> & Hinv');
    simpl; [done|by apply IH].
Qed.

(** The tick in which the renderer drops a wave whose radius has reached
    [maxRadius] exactly: the game sends it to [addWavePulse] and keeps it. *)
Lemma tick_reaches_maxRadius (w : Wave) (fld : WaveField.t) (dt : R) :
  0 <= dt ->
  waveRadius (grow (Math_min dt 0.1) w) = waveMaxRadius (grow (Math_min dt 0.1) w) ->
  0.05 < waveIntensity (grow (Math_min dt 0.1) w) ->
  field_inv fld ->
  exists fld' : WaveField.t,
    Game.update (mkGame [w] [0%nat] [0%nat] fld) dt
    = Ok (mkGame [grow (Math_min dt 0.1) w] [] [0%nat] fld', [0%nat]) /\
    field_inv fld'.
Proof.
  intros Hdt Hrad Hint Hinv. unfold Game.update. simpl.
  remember (grow (Math_min dt 0.1) w) as w' eqn:Hw'. clear Hw'.
  assert (renderer_keeps w' = false) as ->
    by (apply renderer_keeps_false; left; lra).
  simpl.
  destruct (update_inv fld (Math_min dt 0.1)) as (fld1 & -> & Hinv1);
    [unfold Math_min; apply Rmin_glb; lra|done|].
  simpl. unfold pulse_wave. simpl.
  rewrite (proj2 (Rltb_true 0.05 (waveIntensity w'))) by done.
  destruct (addWavePulse_inv fld1 (pulse_of w')) as (fld2 & -> & Hinv2);
    [simpl; lra|done|].
  simpl. exists fld2. split; [|done].
  unfold clean_up, game_keeps. simpl.
  rewrite (proj2 (Rleb_true (waveRadius w') (waveMaxRadius w'))) by lra.
  by rewrite (proj2 (Rltb_true 0.01 (waveIntensity w'))) by lra.
Qed.

(** C5 at a failing input: the thruster emitter built with [waveSpeed: 2900]
    emits a wave of intensity 1 (radius 10, maxRadius 300), and the game
    ticks with [deltaTime = 0.1].  In the first tick the radius becomes 300
    and the intensity 0.5: the renderer drops the wave, the game sends it to
    [addWavePulse] and keeps it.  From then on nothing writes the wave, and
    every later tick sends it to [addWavePulse] again. *)
Theorem stuck_wave_pulses_forever :
  exists (field0 : WaveField.t) (wave0 : Wave) (g1 : Game) (w1 : Wave),
    WaveField.constructor 800 600 32 = Ok field0 /\
    returned (emitWave (thruster 2900) 1 (JsNumber 1000) 0.5 1000) = Some wave0 /\
    Game.update (onWaveEmitted (mkGame [] [] [] field0) wave0) 0.1
    = Ok (g1, [0%nat]) /\
    rendererWaves g1 = [] /\
    gameWaves g1 = [0%nat] /\
    store g1 = [w1] /\
    waveRadius w1 = 300 /\ waveMaxRadius w1 = 300 /\ waveIntensity w1 = 0.5 /\
    forall n : nat, pulses_after n 0.1 g1 = Ok [0%nat].
Proof.
  destruct (WaveField.constructor 800 600 32) as [field0|] eqn:Hnew;
    [|by vm_compute in Hnew].
  pose proof (constructor_inv _ _ _ _ Hnew) as Hinv0.
  set (wave0 := mkWave "player-thruster" 0 "thruster" (mkVec2 400 300) 0 90 10
                  300 2900 1
                  (Utils.snapToScale (220 * (0.98 + 0.5 * 0.04)) "pentatonic")
                  (mkColor 240 66 66) "sawtooth" "lowpass" 800 1 0.3 (0.3 * 1)
                  (or_else (JsNumber 1000) 1000)).
  assert (Hmin : Math_min 0.1 0.1 = 0.1) by (unfold Math_min; apply Rmin_left; lra).
  assert (Hr : waveRadius (grow (Math_min 0.1 0.1) wave0) = 300)
    by (rewrite Hmin; simpl; lra).
  assert (Hi : waveIntensity (grow (Math_min 0.1 0.1) wave0) = 0.5).
  { rewrite Hmin. simpl. unfold Math_max. rewrite Rmax_right; lra. }
  destruct (tick_reaches_maxRadius wave0 field0 0.1) as (field1 & Htick & Hinv1);
    [lra|by rewrite Hr|rewrite Hi; lra|done|].
  exists field0, wave0, (mkGame [grow (Math_min 0.1 0.1) wave0] [] [0%nat] field1),
    (grow (Math_min 0.1 0.1) wave0).
  split; [done|]. split; [done|]. split; [exact Htick|].
  split; [done|]. split; [done|]. split; [done|].
  split; [done|]. split; [done|]. split; [done|].
  intros n. apply pulses_after_orphan; [lra|rewrite Hr; simpl; lra|rewrite Hi; lra|done].
Qed.

(** ** The properties at sample values *)

Lemma sample_field_constructed : WaveField.constructor 100 100 2 = Ok sample_field.
Proof. reflexivity. Qed.

Lemma sample_field_dark : dark sample_field.
Proof. intros i cell [-> _]%lookup_replicate. done. Qed.

Lemma sample_ops_ok : Forall op_ok sample_ops.
Proof.
  unfold sample_ops.
  repeat (apply Forall_cons_2; [simpl; first [lra | exact I]|]).
  apply Forall_nil_2.
Qed.

Lemma energy_bounds_witness :
  WaveField.constructor 100 100 2 = Ok sample_field /\
  Forall op_ok sample_ops /\
  exists f : WaveField.t,
    run (take 3 sample_ops) sample_field = Ok f /\ energy_bounded f.
Proof.
  split; [reflexivity|]. split; [exact sample_ops_ok|].
  apply (energy_bounds 100 100 2 sample_field sample_ops 3);
    [reflexivity|exact sample_ops_ok].
Defined.

Lemma pulse_ring_witness :
  grid_sized sample_field /\ dark sample_field /\
  exists f' : WaveField.t,
    addWavePulse sample_field sample_pulse = Ok f' /\
    forall (gx gy : Z) (cell' : Cell),
      getCell f' gx gy = Some cell' ->
      (0.2 * radius sample_pulse
       <= Rabs (cell_distance sample_field sample_pulse gx gy - radius sample_pulse) ->
       energy cell' = 0) /\
      (0 < energy cell' ->
       Rabs (cell_distance sample_field sample_pulse gx gy - radius sample_pulse)
       < 0.2 * radius sample_pulse /\
       cell_distance sample_field sample_pulse gx gy <= radius sample_pulse).
Proof.
  split; [reflexivity|]. split; [exact sample_field_dark|].
  apply (pulse_ring sample_field sample_pulse);
    [reflexivity|exact sample_field_dark].
Defined.

Lemma decay_monotone_to_zero_witness :
  reachable (addEnergy sample_field 0 0 0.5 440 (mkColor 255 0 0)) /\
  0 < 0.1 /\
  exists N : nat,
    forall n : nat, (N <= n)%nat ->
      exists fn : WaveField.t,
        updates 0.1 n (addEnergy sample_field 0 0 0.5 440 (mkColor 255 0 0)) = Ok fn /\
        dark fn.
Proof.
  assert (Hreach : reachable (addEnergy sample_field 0 0 0.5 440 (mkColor 255 0 0))).
  { apply (reachable_step sample_field _ (OpAddEnergy 0 0 0.5 440 (mkColor 255 0 0))).
    - apply (reachable_new 100 100 2). reflexivity.
    - simpl. lra.
    - reflexivity. }
  split; [exact Hreach|]. split; [lra|].
  apply (decay_monotone_to_zero _ 0.1 Hreach). lra.
Defined.

Lemma snapToScale_idempotent_witness :
  0 < 450 /\
  Utils.snapToScale (Utils.snapToScale 450 "major") "major"
  = Utils.snapToScale 450 "major".
Proof. split; [lra|]. apply (snapToScale_idempotent 450). lra. Defined.

Lemma clear_frame_witness :
  grid sample_field !! 0%nat = Some initial_cell /\
  length (grid (clear sample_field)) = 4%nat.
Proof.
  split; [reflexivity|].
  destruct (clear_frame sample_field) as [Hlen _]. exact Hlen.
Defined.

Lemma worldToGrid_gridToWorld_witness :
  0 < cellWidth sample_field /\ 0 < cellHeight sample_field /\
  worldToGrid sample_field (X (gridToWorld sample_field 1 0))
                           (Y (gridToWorld sample_field 1 0)) = (1, 0)%Z.
Proof.
  assert (Hw : 0 < cellWidth sample_field) by (simpl; lra).
  assert (Hh : 0 < cellHeight sample_field) by (simpl; lra).
  split; [exact Hw|]. split; [exact Hh|].
  exact (worldToGrid_gridToWorld sample_field 1 0 Hw Hh).
Defined.

Lemma emitWave_timestamp_witness :
  active (thruster 200) = true /\
  exists wave : Wave,
    returned (emitWave (thruster 200) 1 (JsNumber 0) 0.5 1234) = Some wave /\
    createdAt wave = 1234.
Proof.
  split; [reflexivity|].
  destruct (emitWave_timestamp (thruster 200) 1 (JsNumber 0) 0.5 1234 eq_refl)
    as (wave & Hret & _ & Hzero & _).
  exists wave. split; [exact Hret|]. apply Hzero. by right.
Defined.

(** ** The model at concrete values *)

Lemma pulse_at_off_front (f : WaveField.t) (p : Pulse) (a : R) (gy : Z)
    (g : list Cell) (gx : Z) :
  ~ on_wave_front f p gx gy -> pulse_at f p a gy g gx = Ok g.
Proof.
  intros Hoff.
  by destruct (pulse_at_cases f p a gy g gx) as [->|(_ & Hon & _)].
Qed.

Lemma pulse_at_on_front (f : WaveField.t) (p : Pulse) (a : R) (gy : Z)
    (g : list Cell) (gx : Z) (cell : Cell) :
  in_grid f gx gy -> on_wave_front f p gx gy -> 360 <= WaveField.spreadAngle p ->
  array_get g (cell_index f gx gy) = Some cell ->
  pulse_at f p a gy g gx
  = Ok (<[Z.to_nat (cell_index f gx gy) :=
          pulse_cell f p a (front_intensity f p gx gy) 1 cell]> g).
Proof.
  intros Hin [Hd Hfront] Hspread Hcell. unfold pulse_at.
  rewrite (proj2 (out_of_grid_false f gx gy) Hin).
  fold (cell_distance f p gx gy).
  rewrite (proj2 (Rleb_true _ _) Hd).
  unfold direction. rewrite (proj2 (Rltb_false _ _) Hspread).
  unfold Math_abs. rewrite (proj2 (Rltb_true _ _) Hfront).
  by rewrite Hcell.
Qed.

Lemma sample_distance_00 : cell_distance sample_field sample_pulse 0 0 = 0.
Proof.
  unfold cell_distance, Math_sqrt; simpl.
  replace (_ + _) with 0 by lra. apply sqrt_0.
Qed.

Lemma sample_distance_10 : cell_distance sample_field sample_pulse 1 0 = 50.
Proof.
  unfold cell_distance, Math_sqrt; simpl.
  replace (_ + _) with (50 * 50) by lra. apply sqrt_square. lra.
Qed.

Lemma sample_distance_01 : cell_distance sample_field sample_pulse 0 1 = 50.
Proof.
  unfold cell_distance, Math_sqrt; simpl.
  replace (_ + _) with (50 * 50) by lra. apply sqrt_square. lra.
Qed.

Lemma sample_distance_11 : 50 < cell_distance sample_field sample_pulse 1 1.
Proof.
  unfold cell_distance, Math_sqrt; simpl.
  replace (_ + _) with 5000 by lra.
  rewrite <- (sqrt_square 50) at 1 by lra. apply sqrt_lt_1_alt. lra.
Qed.

(** A pulse of radius 50 from the center of cell (0, 0) of the 2 x 2 sample
    field: the two cells at distance 50 get energy 1, the cell at the origin
    (distance 0) and the diagonal cell (beyond the radius) keep energy 0. *)
Example sample_pulse_energies :
  exists f' : WaveField.t,
    addWavePulse sample_field sample_pulse = Ok f' /\
    map energy (grid f') = [0; 1; 1; 0].
Proof.
  unfold addWavePulse.
  assert (Hcenter : worldToGrid sample_field (worldX sample_pulse) (worldY sample_pulse)
                    = (0, 0)%Z).
  { unfold worldToGrid, Math_floor; simpl.
    by rewrite (Zfloor_eq 0) by (simpl; lra). }
  assert (Hradius : Math_ceil (radius sample_pulse / cellWidth sample_field) = 1%Z)
    by (unfold Math_ceil; apply Zceil_eq; simpl; lra).
  rewrite Hcenter, Hradius. cbv zeta. cbn [fst snd].
  change (seqZ (0 - 1) (2 * 1 + 1)) with [-1; 0; 1]%Z.
  change (grid sample_field) with (replicate 4 initial_cell).
  pose proof sample_distance_00 as H00. pose proof sample_distance_10 as H10.
  pose proof sample_distance_01 as H01. pose proof sample_distance_11 as H11.
  assert (Hspread : 360 <= WaveField.spreadAngle sample_pulse) by (simpl; lra).
  assert (Hoff00 : ~ on_wave_front sample_field sample_pulse 0 0)
    by (intros [_ H]; rewrite H00 in H; simpl in H;
        rewrite Rabs_left in H by lra; lra).
  assert (Hoff11 : ~ on_wave_front sample_field sample_pulse 1 1)
    by (intros [H _]; simpl in H; lra).
  assert (Hon10 : on_wave_front sample_field sample_pulse 1 0)
    by (split; rewrite H10; simpl; [lra|rewrite Rabs_right; lra]).
  assert (Hon01 : on_wave_front sample_field sample_pulse 0 1)
    by (split; rewrite H01; simpl; [lra|rewrite Rabs_right; lra]).
  simpl foldM.
  rewrite (pulse_at_off_front _ _ _ 0 _ 0 Hoff00). simpl bind.
  rewrite (pulse_at_on_front _ _ _ 0 _ 1 initial_cell) by done. simpl bind.
  rewrite (pulse_at_on_front _ _ _ 1 _ 0 initial_cell) by done. simpl bind.
  rewrite (pulse_at_off_front _ _ _ 1 _ 1 Hoff11). simpl bind.
  eexists. split; [reflexivity|]. simpl.
  unfold front_intensity. rewrite H10, H01. simpl.
  replace (50 - 50) with 0 by lra. rewrite Rabs_R0.
  unfold Math_min. rewrite Rmin_left by lra. done.
Qed.

(** One sixtieth of a second of decay takes the energy 0.5 to 0.49. *)
Example sample_update_energy :
  exists (f' : WaveField.t) (cell' : Cell),
    WaveField.update (addEnergy sample_field 0 0 0.5 440 (mkColor 255 0 0)) (1 / 60)
    = Ok f' /\
    grid f' !! 0%nat = Some cell' /\ energy cell' = 0.49.
Proof.
  destruct (update_ok (addEnergy sample_field 0 0 0.5 440 (mkColor 255 0 0)) (1 / 60))
    as (f' & Hrun & _ & _ & _ & _ & _ & _ & Hpt); [done|].
  exists f'. eexists. split; [done|]. split; [by apply Hpt|].
  rewrite updated_cell_energy by done. simpl.
  replace (1 / 60 * 60) with 1 by lra.
  unfold Math_pow, Math_min. rewrite Rpower_1 by lra. rewrite Rmin_right by lra.
  rcases; lra.
Qed.

(** A4 and A5 are notes of the major scale on A. *)
Example snapToScale_440 : Utils.snapToScale 440 "major" = 440.
Proof.
  assert (H : note_frequency 0 = 440).
  { unfold note_frequency, Math_pow. replace (0 / 12) with 0 by lra.
    rewrite Rpower_O; lra. }
  rewrite <- H at 1. rewrite snapToScale_fixed; [done|]. simpl. auto.
Qed.

Example snapToScale_880 : Utils.snapToScale 880 "major" = 880.
Proof.
  assert (H : note_frequency 12 = 880).
  { unfold note_frequency, Math_pow. replace (12 / 12) with 1 by lra.
    rewrite Rpower_1; lra. }
  rewrite <- H at 1. rewrite snapToScale_fixed; [done|]. simpl. auto.
Qed.

(** * Further properties of the code *)

(** ** Queries on the grid *)

Lemma getCell_is_Some (f : WaveField.t) (gx gy : Z) :
  grid_sized f -> in_grid f gx gy -> is_Some (getCell f gx gy).
Proof.
  intros Hsz Hin. unfold getCell.
  destruct (out_of_grid f gx gy) eqn:Hout.
  - apply out_of_grid_false in Hin. congruence.
  - pose proof (in_grid_index f gx gy Hin).
    rewrite array_get_nat by lia. apply lookup_lt_is_Some. red in Hsz. lia.
Qed.

Lemma getCell_is_Some_inv (f : WaveField.t) (gx gy : Z) :
  is_Some (getCell f gx gy) -> in_grid f gx gy.
Proof.
  unfold getCell. destruct (out_of_grid f gx gy) eqn:Hout.
  - by intros [? ?].
  - intros _. by apply out_of_grid_false.
Qed.

(** X1: on a grid of [resolution * resolution] cells, [getCell(x, y)] gives a
    cell exactly when [0 <= x < resolution] and [0 <= y < resolution], and
    [null] otherwise; the cell it gives is the element
    [y * resolution + x] of the grid. *)
Theorem getCell_in_bounds (f : WaveField.t) (gx gy : Z) :
  grid_sized f ->
  (is_Some (getCell f gx gy) <-> in_grid f gx gy) /\
  (~ in_grid f gx gy -> getCell f gx gy = None) /\
  (in_grid f gx gy ->
   getCell f gx gy = grid f !! Z.to_nat (gy * resolution f + gx)).
Proof.
  intros Hsz. split; [|split].
  - split; [apply getCell_is_Some_inv|by apply getCell_is_Some].
  - intros Hout. destruct (getCell f gx gy) eqn:E; [|done].
    exfalso. apply Hout, getCell_is_Some_inv. by rewrite E.
  - intros Hin. unfold getCell.
    rewrite (proj2 (out_of_grid_false f gx gy) Hin).
    pose proof (in_grid_index f gx gy Hin) as Hidx. unfold cell_index in *.
    apply array_get_nat. lia.
Qed.

Lemma getCell_in_bounds_witness :
  grid_sized sample_field /\
  (is_Some (getCell sample_field 1 1) <-> in_grid sample_field 1 1).
Proof.
  split; [reflexivity|].
  exact (proj1 (getCell_in_bounds sample_field 1 1 eq_refl)).
Defined.




(** The calls keep the geometry of the field. *)
Lemma addWavePulse_frame (f f' : WaveField.t) (p : Pulse) :
  addWavePulse f p = Ok f' -> exists g, f' = set_grid f g.
Proof.
  unfold addWavePulse.
  match goal with |- context [foldM ?b ?l ?s] => destruct (foldM b l s) as [g|] end;
    simpl; [|done].
  intros [= <-]. by exists g.
Qed.

Lemma update_frame (f f' : WaveField.t) (dt : R) :
  WaveField.update f dt = Ok f' ->
  exists g, f' = set_grid (set_timeStep f (timeStep f + 1)) g.
Proof.
  unfold WaveField.update. destruct (update_loops _ dt) as [st|]; simpl; [|done].
  intros [= <-]. by exists st.2.
Qed.


Lemma reachable_world (f : WaveField.t) :
  reachable f ->
  exists (w h : R) (res : Z) (f0 : WaveField.t),
    constructor w h res = Ok f0 /\
    width f = w /\ height f = h /\ resolution f = res.
Proof.
  induction 1 as [w h res f Hnew|f f' op _ IH Hop Hstep].
  - exists w, h, res, f. split; [done|]. unfold constructor in Hnew.
    destruct (array_length_ok (res * res)); [|done]. by injection Hnew as <-.
  - destruct IH as (w & h & res & f0 & Hnew & Hw & Hh & Hres).
    exists w, h, res, f0. split; [done|].
    destruct op as [gx gy amount fr col|p|dt|]; simpl in Hstep.
    + injection Hstep as <-. unfold addEnergy. by destruct (getCell f gx gy).
    + by apply addWavePulse_frame in Hstep as [g ->].
    + by apply update_frame in Hstep as [g ->].
    + by injection Hstep as <-.
Qed.


Lemma sample_field_reachable : reachable sample_field.
Proof. apply (reachable_new 100 100 2). reflexivity. Qed.


(** ** addEnergy *)

(** X4: [addEnergy] at grid coordinates outside the grid changes nothing. *)
Theorem addEnergy_out_of_range (f : WaveField.t) (gx gy : Z) (amount fr : R)
    (col : Color) :
  ~ in_grid f gx gy -> addEnergy f gx gy amount fr col = f.
Proof.
  intros Hout. unfold addEnergy.
  destruct (getCell f gx gy) as [cell|] eqn:Hget; [|done].
  by apply getCell_Some in Hget as [Hin _].
Qed.

Lemma addEnergy_out_of_range_witness :
  ~ in_grid sample_field 2 0 /\
  addEnergy sample_field 2 0 0.5 440 (mkColor 255 0 0) = sample_field.
Proof.
  assert (H : ~ in_grid sample_field 2 0) by (unfold in_grid; simpl; lia).
  split; [exact H|]. exact (addEnergy_out_of_range sample_field 2 0 0.5 440 _ H).
Defined.

Lemma getCell_set_grid_other (f : WaveField.t) (gx gy gx' gy' : Z) (c : Cell) :
  in_grid f gx gy -> (gx', gy') <> (gx, gy) ->
  getCell (set_grid f (<[Z.to_nat (cell_index f gx gy) := c]> (grid f))) gx' gy'
  = getCell f gx' gy'.
Proof.
  intros Hin Hne. unfold getCell.
  change (out_of_grid (set_grid f _) gx' gy') with (out_of_grid f gx' gy').
  destruct (out_of_grid f gx' gy') eqn:Hout; [done|].
  apply out_of_grid_false in Hout.
  change (cell_index (set_grid f _) gx' gy') with (cell_index f gx' gy').
  pose proof (in_grid_index f gx gy Hin). pose proof (in_grid_index f gx' gy' Hout).
  rewrite !array_get_nat by lia. simpl.
  apply list_lookup_insert_ne. intros Heq. apply Z2Nat.inj in Heq; [|lia..].
  apply cell_index_inj in Heq as [-> ->]; done.
Qed.

Lemma getCell_set_grid_same (f : WaveField.t) (gx gy : Z) (cell c : Cell) :
  getCell f gx gy = Some cell ->
  getCell (set_grid f (<[Z.to_nat (cell_index f gx gy) := c]> (grid f))) gx gy
  = Some c.
Proof.
  intros Hget. apply getCell_Some in Hget as [Hin Hcell]. unfold getCell.
  change (out_of_grid (set_grid f _) gx gy) with (out_of_grid f gx gy).
  rewrite (proj2 (out_of_grid_false f gx gy) Hin).
  change (cell_index (set_grid f _) gx gy) with (cell_index f gx gy).
  pose proof (in_grid_index f gx gy Hin).
  rewrite array_get_nat by lia. simpl.
  apply list_lookup_insert_eq. by apply lookup_lt_Some in Hcell.
Qed.

(** X5: [addEnergy] on a cell of the grid sets its energy to
    [min(1, energy + amount)] and its [lastActive] to the current time step,
    keeps its phase and velocity, and leaves every other cell of the grid as
    it was. *)
Theorem addEnergy_effect (f : WaveField.t) (gx gy : Z) (amount fr : R)
    (col : Color) (cell : Cell) :
  getCell f gx gy = Some cell ->
  (exists cell' : Cell,
     getCell (addEnergy f gx gy amount fr col) gx gy = Some cell' /\
     energy cell' = Rmin 1 (energy cell + amount) /\
     lastActive cell' = timeStep f /\
     phase cell' = phase cell /\ velocity cell' = velocity cell) /\
  (forall gx' gy' : Z, (gx', gy') <> (gx, gy) ->
     getCell (addEnergy f gx gy amount fr col) gx' gy' = getCell f gx' gy').
Proof.
  intros Hget. unfold addEnergy. rewrite Hget. split.
  - eexists. split; [by apply (getCell_set_grid_same f gx gy cell)|]. done.
  - intros gx' gy' Hne. apply getCell_set_grid_other; [|done].
    by apply getCell_Some in Hget as [Hin _].
Qed.

Lemma addEnergy_effect_witness :
  getCell sample_field 0 0 = Some initial_cell /\
  exists cell' : Cell,
    getCell (addEnergy sample_field 0 0 0.5 440 (mkColor 255 0 0)) 0 0 = Some cell' /\
    energy cell' = Rmin 1 (energy initial_cell + 0.5).
Proof.
  split; [reflexivity|].
  destruct (addEnergy_effect sample_field 0 0 0.5 440 (mkColor 255 0 0)
              initial_cell eq_refl) as [(cell' & Hget & He & _) _].
  exists cell'. split; [exact Hget|exact He].
Defined.

Lemma blend_between (old new bf : R) :
  0 <= bf <= 1 -> Rmin old new <= blend old new bf <= Rmax old new.
Proof.
  intros Hbf. unfold blend, Rmin, Rmax.
  destruct (Rle_dec old new); nra.
Qed.

(** X6: an amount of at most 0.05 leaves the frequency and the color of the
    cell as they were; a larger amount, on a cell with nonnegative energy,
    leaves a frequency between the frequency of the cell and the injected
    one. *)
Theorem addEnergy_blend (f : WaveField.t) (gx gy : Z) (amount fr : R)
    (col : Color) (cell : Cell) :
  getCell f gx gy = Some cell ->
  exists cell' : Cell,
    getCell (addEnergy f gx gy amount fr col) gx gy = Some cell' /\
    (amount <= 0.05 ->
     frequency cell' = frequency cell /\ color cell' = color cell) /\
    (0.05 < amount -> 0 <= energy cell ->
     Rmin (frequency cell) fr <= frequency cell' <= Rmax (frequency cell) fr).
Proof.
  intros Hget. unfold addEnergy. rewrite Hget.
  eexists. split; [by apply (getCell_set_grid_same f gx gy cell)|].
  unfold addEnergy_cell; simpl. split.
  - intros Hsmall. by rewrite (proj2 (Rltb_false 0.05 amount)).
  - intros Hbig He. rewrite (proj2 (Rltb_true 0.05 amount)) by done.
    apply blend_between.
    assert (Hpos : 0 < energy cell + amount) by lra.
    assert (Hinv : 0 < / (energy cell + amount)) by (by apply Rinv_0_lt_compat).
    unfold Rdiv. split; [nra|].
    apply (Rmult_le_reg_r (energy cell + amount)); [done|].
    rewrite Rmult_assoc, Rinv_l by lra. lra.
Qed.

Lemma addEnergy_blend_witness :
  getCell sample_field 0 0 = Some initial_cell /\
  exists cell' : Cell,
    getCell (addEnergy sample_field 0 0 0.5 880 (mkColor 255 0 0)) 0 0 = Some cell' /\
    Rmin (frequency initial_cell) 880 <= frequency cell'
    <= Rmax (frequency initial_cell) 880.
Proof.
  split; [reflexivity|].
  destruct (addEnergy_blend sample_field 0 0 0.5 880 (mkColor 255 0 0)
              initial_cell eq_refl) as (cell' & Hget & _ & Hb).
  exists cell'. split; [exact Hget|]. apply Hb; simpl; lra.
Defined.

(** ** addWavePulse *)

(** X7: a pulse of radius 0 or less changes nothing, and never throws. *)
Theorem addWavePulse_no_radius (f : WaveField.t) (p : Pulse) :
  radius p <= 0 -> addWavePulse f p = Ok f.
Proof.
  intros Hr. unfold addWavePulse.
  match goal with
  | |- context [foldM ?body ?ys (grid f)] =>
      destruct (foldM_invariant (fun g => g = grid f) (fun _ => True)
                  body ys (grid f)) as (g' & -> & ->)
  end.
  - done.
  - by apply Forall_true.
  - intros g gy -> _.
    apply (foldM_invariant (fun g => g = grid f) (fun _ => True));
      [done|by apply Forall_true|].
    intros g gx -> _. exists (grid f). split; [|done].
    destruct (pulse_at_cases f p (normalize_angle (WaveField.angle p)) gy (grid f) gx)
      as [->|(_ & [_ Hfront] & _)]; [done|].
    pose proof (Rabs_pos (cell_distance f p gx gy - radius p)). lra.
  - simpl. by destruct f.
Qed.

Lemma addWavePulse_no_radius_witness :
  radius (mkPulse 25 25 0 1 440 (mkColor 255 0 0) 0 360) <= 0 /\
  addWavePulse sample_field (mkPulse 25 25 0 1 440 (mkColor 255 0 0) 0 360)
  = Ok sample_field.
Proof.
  split; [simpl; lra|].
  apply (addWavePulse_no_radius sample_field). simpl; lra.
Defined.




(** X9: on a field with energies at most 1, a pulse of nonnegative intensity
    lowers the energy of no cell. *)
Theorem pulse_raises_energy (f : WaveField.t) (p : Pulse) :
  grid_sized f -> energy_bounded f -> 0 <= intensity p ->
  exists f' : WaveField.t,
    addWavePulse f p = Ok f' /\
    forall (i : nat) (c : Cell), grid f !! i = Some c ->
      exists c' : Cell, grid f' !! i = Some c' /\ energy c <= energy c'.
Proof.
  intros Hsz Hbound Hint.
  destruct (addWavePulse_invariant f p
              (fun i c' => exists c, grid f !! i = Some c /\
                                     energy c <= energy c' /\ energy c' <= 1) Hsz)
    as (f' & Hrun & _ & _ & _ & _ & _ & Hlen & HI).
  - intros i c Hc. exists c. split; [done|]. split; [lra|]. by apply (Hbound i c).
  - intros gx gy c' df Hin Hfront (c & Hc & Hle & H1).
    pose proof (front_intensity_nonneg f p gx gy Hint Hfront).
    exists c. split; [done|]. rewrite pulse_cell_energy. split.
    + apply Rmin_glb; lra.
    + apply Rmin_l.
  - exists f'. split; [done|]. intros i c Hc.
    destruct (lookup_lt_is_Some_2 (grid f') i) as [c' Hc'].
    { rewrite Hlen. by apply lookup_lt_Some in Hc. }
    exists c'. split; [done|].
    destruct (HI i c' Hc') as (c0 & Hc0 & Hle & _). congruence.
Qed.

Lemma sample_field_bounded : energy_bounded sample_field.
Proof. intros i cell [-> _]%lookup_replicate. simpl. lra. Qed.

Lemma pulse_raises_energy_witness :
  grid_sized sample_field /\ energy_bounded sample_field /\
  0 <= intensity sample_pulse /\
  exists f' : WaveField.t, addWavePulse sample_field sample_pulse = Ok f'.
Proof.
  split; [reflexivity|]. split; [exact sample_field_bounded|].
  split; [simpl; lra|].
  destruct (pulse_raises_energy sample_field sample_pulse)
    as (f' & Hrun & _); [reflexivity|exact sample_field_bounded|simpl; lra|].
  exists f'. exact Hrun.
Defined.

(** ** update *)

(** X10: in every reachable field the phase of every cell is 0: the phase
    starts at 0, [addEnergy] and [addWavePulse] keep it, [clear] sets it to 0,
    and the phase write of [update] never reaches the new grid. *)
Theorem reachable_phase_zero (f : WaveField.t) (i : nat) (c : Cell) :
  reachable f -> grid f !! i = Some c -> phase c = 0.
Proof.
  intros Hreach. revert i c.
  induction Hreach as [w h res f Hnew|f f' op Hreach IH Hop Hstep]; intros i c Hc.
  - apply constructor_ok in Hnew as (_ & _ & Hgrid). rewrite Hgrid in Hc.
    by apply lookup_replicate in Hc as [-> _].
  - pose proof (reachable_inv f Hreach) as (Hsz & _).
    destruct op as [gx gy amount fr col|p|dt|]; simpl in Hstep.
    + injection Hstep as <-. unfold addEnergy in Hc.
      destruct (getCell f gx gy) as [cell|] eqn:Hget; [|by apply (IH i)].
      apply getCell_Some in Hget as [_ Hcell]. simpl in Hc.
      apply list_lookup_insert_Some in Hc as [(_ & <- & _)|[_ Hc]].
      * simpl. by apply (IH _ _ Hcell).
      * by apply (IH i).
    + destruct (addWavePulse_invariant f p (fun _ c => phase c = 0) Hsz)
        as (f'' & Hrun & _ & _ & _ & _ & _ & _ & HI); [exact IH|done|].
      assert (f'' = f') as -> by congruence. by apply (HI i).
    + destruct (update_ok f dt Hsz) as (f'' & Hrun & _ & _ & _ & _ & _ & Hlen & Hpt).
      assert (f'' = f') as -> by congruence.
      destruct (lookup_lt_is_Some_2 (grid f) i) as [c0 Hc0].
      { rewrite <- Hlen. by apply lookup_lt_Some in Hc. }
      rewrite (Hpt i c0 Hc0) in Hc. injection Hc as <-.
      rewrite updated_cell_phase. by apply (IH i).
    + injection Hstep as <-. unfold clear in Hc. simpl in Hc.
      rewrite list_lookup_fmap in Hc.
      destruct (grid f !! i); simpl in Hc; [|done]. by injection Hc as <-.
Qed.

Lemma reachable_phase_zero_witness :
  reachable sample_field /\ grid sample_field !! 1%nat = Some initial_cell /\
  phase initial_cell = 0.
Proof.
  split; [exact sample_field_reachable|]. split; [reflexivity|].
  exact (reachable_phase_zero sample_field 1 initial_cell
           sample_field_reachable eq_refl).
Defined.




(** X12: [update] advances the time step by one and leaves the resolution,
    the dimensions, and the frequency, color and [lastActive] of every cell
    as they were. *)
Theorem update_frame_cells (f : WaveField.t) (dt : R) :
  grid_sized f ->
  exists f' : WaveField.t,
    WaveField.update f dt = Ok f' /\
    timeStep f' = (timeStep f + 1)%Z /\
    resolution f' = resolution f /\
    width f' = width f /\ height f' = height f /\
    cellWidth f' = cellWidth f /\ cellHeight f' = cellHeight f /\
    length (grid f') = length (grid f) /\
    forall (i : nat) (c : Cell), grid f !! i = Some c ->
      exists c' : Cell,
        grid f' !! i = Some c' /\
        frequency c' = frequency c /\ color c' = color c /\
        lastActive c' = lastActive c.
Proof.
  intros Hsz.
  destruct (update_ok f dt Hsz) as (f' & Hrun & Hres & _ & Hcw & Hch & Hts & Hlen & Hpt).
  exists f'. split; [done|].
  destruct (update_frame f f' dt Hrun) as [g Hg].
  repeat (split; [first [done | by rewrite Hg]|]).
  intros i c Hc. exists (updated_cell f dt c). split; [by apply Hpt|].
  unfold updated_cell. by destruct (0 <=? resolution f)%Z.
Qed.

Lemma update_frame_cells_witness :
  grid_sized sample_field /\
  exists f' : WaveField.t,
    WaveField.update sample_field 0.1 = Ok f' /\
    timeStep f' = (timeStep sample_field + 1)%Z.
Proof.
  split; [reflexivity|].
  destruct (update_frame_cells sample_field 0.1) as (f' & Hrun & Hts & _);
    [reflexivity|].
  exists f'. split; [exact Hrun|exact Hts].
Defined.

Lemma updated_cell_velocity (f : WaveField.t) (dt : R) (c : Cell) :
  decayRate f = 0.98 -> 0 <= energy c -> 0 <= dt ->
  exists s : R,
    0 <= s <= 1 /\
    X (velocity (updated_cell f dt c)) = s * X (velocity c) /\
    Y (velocity (updated_cell f dt c)) = s * Y (velocity c).
Proof.
  intros Hrate He0 Hdt.
  pose proof (decay_factor_bounds dt Hdt) as [Hk0 Hk1].
  unfold updated_cell. destruct (0 <=? resolution f)%Z.
  - unfold decay_cell. rewrite advance_phase_energy, Hrate.
    assert (Hv : velocity (advance_phase dt c) = velocity c)
      by (unfold advance_phase; by destruct (energy c >? 0.01)).
    rewrite Hv. simpl.
    destruct (negb (Reqb (X (velocity c)) 0) || negb (Reqb (Y (velocity c)) 0)).
    + destruct (energy c >? 0.01) eqn:He.
      * apply Rltb_true in He.
        assert (Hratio : energy c * Math_pow 0.98 (dt * 60) / energy c
                         = Math_pow 0.98 (dt * 60)) by (field; lra).
        rewrite Hratio. simpl.
        match goal with |- context [Rltb ?m 0.01] => destruct (Rltb m 0.01) end; simpl.
        -- exists 0. split; [lra|]. split; lra.
        -- exists (Math_pow 0.98 (dt * 60)). split; [lra|]. split; lra.
      * simpl.
        match goal with |- context [Rltb ?m 0.01] => destruct (Rltb m 0.01) end; simpl.
        -- exists 0. split; [lra|]. split; lra.
        -- exists 0.8. split; [lra|]. split; lra.
    + exists 1. simpl. split; [lra|]. split; lra.
  - exists 1. simpl. split; [lra|]. split; lra.
Qed.

(** X13: [update] on a reachable field, with a nonnegative time step, scales
    the velocity of every cell by a factor between 0 and 1: a cell at rest
    stays at rest, the direction is kept, and the velocity never grows. *)
Theorem update_scales_velocity (f : WaveField.t) (dt : R) :
  reachable f -> 0 <= dt ->
  exists f' : WaveField.t,
    WaveField.update f dt = Ok f' /\
    forall (i : nat) (c : Cell), grid f !! i = Some c ->
      exists (c' : Cell) (s : R),
        grid f' !! i = Some c' /\ 0 <= s <= 1 /\
        X (velocity c') = s * X (velocity c) /\
        Y (velocity c') = s * Y (velocity c).
Proof.
  intros Hreach Hdt. destruct (reachable_inv f Hreach) as (Hsz & Hrate & Hbound & _).
  destruct (update_ok f dt Hsz) as (f' & Hrun & _ & _ & _ & _ & _ & _ & Hpt).
  exists f'. split; [done|]. intros i c Hc.
  destruct (updated_cell_velocity f dt c Hrate) as (s & Hs & Hx & Hy);
    [by apply (Hbound i c)|done|].
  exists (updated_cell f dt c), s. split; [by apply Hpt|]. done.
Qed.

Lemma update_scales_velocity_witness :
  reachable sample_field /\ 0 <= 0.1 /\
  exists f' : WaveField.t, WaveField.update sample_field 0.1 = Ok f'.
Proof.
  split; [exact sample_field_reachable|]. split; [lra|].
  destruct (update_scales_velocity sample_field 0.1 sample_field_reachable)
    as (f' & Hrun & _); [lra|].
  exists f'. exact Hrun.
Defined.

Lemma updated_cell_energy_inv (f : WaveField.t) (dt : R) (i : nat) (c : Cell) :
  field_inv f -> grid f !! i = Some c ->
  energy (updated_cell f dt c) =
  if energy c * Math_pow 0.98 (dt * 60) <? 0.01 then 0
  else energy c * Math_pow 0.98 (dt * 60).
Proof.
  intros (Hsz & Hrate & Hbound & Hdark) Hc.
  destruct (Z.lt_ge_cases (resolution f) 0) as [Hneg|Hpos].
  - rewrite updated_cell_energy_neg by done. rewrite (Hdark Hneg i c Hc).
    rewrite Rmult_0_l. by rewrite (proj2 (Rltb_true 0 0.01)) by lra.
  - by apply updated_cell_energy.
Qed.

Lemma pow_unit_interval (k : R) (n : nat) : 0 < k <= 1 -> 0 < k ^ n <= 1.
Proof.
  intros Hk. induction n as [|n IH]; simpl; [lra|nra].
Qed.

Lemma updates_closed (dt : R) (m : nat) (f : WaveField.t) :
  field_inv f -> 0 <= dt ->
  exists fn : WaveField.t,
    updates dt (S m) f = Ok fn /\ field_inv fn /\
    length (grid fn) = length (grid f) /\
    forall (i : nat) (c : Cell), grid f !! i = Some c ->
      exists cn : Cell,
        grid fn !! i = Some cn /\
        energy cn =
        if energy c * Math_pow 0.98 (dt * 60) ^ S m <? 0.01 then 0
        else energy c * Math_pow 0.98 (dt * 60) ^ S m.
Proof.
  intros Hinv Hdt. revert f Hinv.
  pose proof (decay_factor_bounds dt Hdt) as Hk.
  induction m as [|m IH]; intros f Hinv; rewrite updates_S;
    destruct (update_inv f dt Hdt Hinv) as (f1 & Hrun1 & Hinv1);
    destruct (update_ok f dt (proj1 Hinv))
      as (f1' & Hrun1' & _ & _ & _ & _ & _ & Hlen1 & Hpt1);
    assert (f1' = f1) as -> by congruence; rewrite Hrun1; simpl bind.
  - exists f1. split; [done|]. split; [done|]. split; [done|].
    intros i c Hc. exists (updated_cell f dt c). split; [by apply Hpt1|].
    rewrite (updated_cell_energy_inv f dt i c Hinv Hc). by rewrite pow_1.
  - destruct (IH f1 Hinv1) as (fn & Hrun & Hinvn & Hlen & Hpt).
    exists fn. split; [done|]. split; [done|]. split; [congruence|].
    intros i c Hc.
    destruct (Hpt i _ (Hpt1 i c Hc)) as (cn & Hcn & Hen).
    exists cn. split; [done|]. rewrite Hen.
    rewrite (updated_cell_energy_inv f dt i c Hinv Hc).
    destruct Hinv as (_ & _ & Hbound & _). specialize (Hbound i c Hc).
    pose proof (pow_unit_interval _ (S m) Hk) as HK.
    change (Math_pow 0.98 (dt * 60) ^ S (S m))
      with (Math_pow 0.98 (dt * 60) * Math_pow 0.98 (dt * 60) ^ S m).
    set (k := Math_pow 0.98 (dt * 60)) in *. set (K := k ^ S m) in *.
    replace (energy c * (k * K)) with (energy c * k * K) by ring.
    assert (0 <= energy c * k) by nra.
    assert (energy c * k * K <= energy c * k) by nra.
    destruct (energy c * k <? 0.01) eqn:E1;
      [apply Rltb_true in E1|apply Rltb_false in E1]; rcases; lra.
Qed.

(** X14: on a reachable field, after [n >= 1] calls [update(deltaTime)] with
    a nonnegative [deltaTime], the energy of a cell that started at [e] is
    [e * k ^ n], for the decay factor [k = 0.98 ** (deltaTime * 60)] of one
    call, if that is at least 0.01, and exactly 0 otherwise. *)
Theorem updates_energy_closed_form (f : WaveField.t) (dt : R) (n : nat) :
  reachable f -> 0 <= dt -> (1 <= n)%nat ->
  exists fn : WaveField.t,
    updates dt n f = Ok fn /\
    forall (i : nat) (c : Cell), grid f !! i = Some c ->
      exists cn : Cell,
        grid fn !! i = Some cn /\
        energy cn =
        if energy c * Math_pow 0.98 (dt * 60) ^ n <? 0.01 then 0
        else energy c * Math_pow 0.98 (dt * 60) ^ n.
Proof.
  intros Hreach Hdt Hn. destruct n as [|m]; [lia|].
  destruct (updates_closed dt m f (reachable_inv f Hreach) Hdt)
    as (fn & Hrun & _ & _ & Hpt).
  by exists fn.
Qed.

Lemma updates_energy_closed_form_witness :
  reachable sample_field /\ 0 <= 0.1 /\ (1 <= 3)%nat /\
  exists fn : WaveField.t, updates 0.1 3 sample_field = Ok fn.
Proof.
  split; [exact sample_field_reachable|]. split; [lra|]. split; [lia|].
  destruct (updates_energy_closed_form sample_field 0.1 3 sample_field_reachable)
    as (fn & Hrun & _); [lra|lia|].
  exists fn. exact Hrun.
Defined.

(** ** getActiveCells *)

Lemma floor_div_pos (a b : Z) : (0 < b)%Z -> Math_floor (IZR a / IZR b) = (a / b)%Z.
Proof.
  intros Hb. unfold Math_floor. apply Zfloor_eq.
  pose proof (Z.div_mod a b ltac:(lia)) as Hdm.
  pose proof (Z.mod_pos_bound a b Hb) as [Hlo Hhi].
  apply (f_equal IZR) in Hdm. rewrite plus_IZR, mult_IZR in Hdm.
  apply IZR_le in Hlo. apply IZR_lt in Hhi. apply IZR_lt in Hb.
  assert (Hinv : 0 < / IZR b) by (by apply Rinv_0_lt_compat).
  assert (Hq : IZR a / IZR b = IZR (a / b) + IZR (a mod b) / IZR b)
    by (rewrite Hdm; field; lra).
  rewrite Hq. split.
  - unfold Rdiv. nra.
  - assert (IZR (a mod b) / IZR b < 1); [|lra].
    apply (Rmult_lt_reg_r (IZR b)); [done|].
    unfold Rdiv. rewrite Rmult_assoc, Rinv_l by lra. lra.
Qed.

Lemma rem_nonneg (a b : Z) :
  (0 <= a)%Z -> (0 < b)%Z -> rem (IZR a) (IZR b) = IZR (a mod b).
Proof.
  intros Ha Hb. unfold rem, trunc.
  assert (0 <= IZR a / IZR b).
  { apply IZR_le in Ha. apply IZR_lt in Hb. unfold Rdiv.
    apply Rmult_le_pos; [done|]. left. by apply Rinv_0_lt_compat. }
  rewrite (proj2 (Rleb_true 0 (IZR a / IZR b))) by done.
  pose proof (floor_div_pos a b Hb) as Hf. unfold Math_floor in Hf. rewrite Hf.
  pose proof (Z.div_mod a b ltac:(lia)) as Hdm.
  apply (f_equal IZR) in Hdm. rewrite plus_IZR, mult_IZR in Hdm. lra.
Qed.

(** The item of [getActiveCells] for the cell at an index of the grid
    carries the coordinates of that cell. *)
Lemma active_item_coordinates (f : WaveField.t) (gx gy : Z) (c : Cell) :
  in_grid f gx gy ->
  active_item f (Z.to_nat (cell_index f gx gy)) c
  = {| itemCell := c; itemIndex := cell_index f gx gy;
       itemX := IZR gx; itemY := gy;
       itemWorldX := X (gridToWorld f (IZR gx) (IZR gy));
       itemWorldY := Y (gridToWorld f (IZR gx) (IZR gy)) |}.
Proof.
  intros Hin. pose proof (in_grid_index f gx gy Hin) as Hidx.
  destruct Hin as [Hx Hy]. unfold active_item.
  rewrite Z2Nat.id by lia.
  rewrite rem_nonneg, floor_div_pos by lia.
  unfold cell_index.
  rewrite Z.add_comm, Z.mod_add, Z.div_add by lia.
  rewrite Z.mod_small, Z.div_small by lia. simpl. done.
Qed.

(** X15: on a grid of [resolution * resolution] cells with a positive
    resolution, [getActiveCells(threshold)] is sound and complete: every item
    is a cell [(x, y)] of the grid with energy above the threshold, reported
    with its own index, its grid coordinates and the world position of its
    center; and every cell of the grid with energy above the threshold has
    its item. *)
Theorem getActiveCells_exact (f : WaveField.t) (threshold : R) :
  grid_sized f -> (0 < resolution f)%Z ->
  (forall item : ActiveCell, In item (getActiveCells f threshold) ->
     exists gx gy : Z,
       getCell f gx gy = Some (itemCell item) /\
       threshold < energy (itemCell item) /\
       itemIndex item = cell_index f gx gy /\
       itemX item = IZR gx /\ itemY item = gy /\
       itemWorldX item = X (gridToWorld f (IZR gx) (IZR gy)) /\
       itemWorldY item = Y (gridToWorld f (IZR gx) (IZR gy))) /\
  (forall (gx gy : Z) (c : Cell),
     getCell f gx gy = Some c -> threshold < energy c ->
     exists item : ActiveCell,
       In item (getActiveCells f threshold) /\
       itemCell item = c /\ itemIndex item = cell_index f gx gy).
Proof.
  intros Hsz Hres. unfold getActiveCells. split.
  - intros item [Hin Hpass]%filter_In. apply Rltb_true in Hpass.
    apply list_elem_of_In, elem_of_lookup_imap in Hin as (i & c & -> & Hc).
    pose proof (lookup_lt_Some _ _ _ Hc) as Hi. red in Hsz.
    set (gx := (Z.of_nat i mod resolution f)%Z).
    set (gy := (Z.of_nat i / resolution f)%Z).
    assert (Hgrid : in_grid f gx gy).
    { unfold in_grid, gx, gy. split; [apply Z.mod_pos_bound; lia|].
      split; [apply Z.div_pos; lia|]. apply Z.div_lt_upper_bound; lia. }
    assert (Hidx : cell_index f gx gy = Z.of_nat i).
    { unfold cell_index, gx, gy.
      pose proof (Z.div_mod (Z.of_nat i) (resolution f) ltac:(lia)). lia. }
    exists gx, gy.
    pose proof (active_item_coordinates f gx gy c Hgrid) as Hitem.
    rewrite Hidx, Nat2Z.id in Hitem. rewrite Hitem. simpl.
    split; [|by rewrite Hidx].
    unfold getCell. rewrite (proj2 (out_of_grid_false f gx gy) Hgrid).
    rewrite array_get_nat by lia. by rewrite Hidx, Nat2Z.id.
  - intros gx gy c Hget He. apply getCell_Some in Hget as [Hin Hc].
    exists (active_item f (Z.to_nat (cell_index f gx gy)) c).
    split; [|by rewrite active_item_coordinates].
    apply filter_In. split.
    + apply list_elem_of_In. by apply elem_of_lookup_imap_2.
    + simpl. by apply Rltb_true.
Qed.

Lemma getActiveCells_exact_witness :
  grid_sized sample_field /\ (0 < resolution sample_field)%Z /\
  forall item : ActiveCell, In item (getActiveCells sample_field 0.05) ->
    exists gx gy : Z, getCell sample_field gx gy = Some (itemCell item).
Proof.
  split; [reflexivity|]. split; [reflexivity|].
  destruct (getActiveCells_exact sample_field 0.05) as [Hsound _];
    [reflexivity|reflexivity|].
  intros item Hin. destruct (Hsound item Hin) as (gx & gy & Hget & _).
  exists gx, gy. exact Hget.
Defined.

Lemma filter_imap_dark (h : nat -> Cell -> ActiveCell) (g : list Cell) (threshold : R) :
  (forall i c, itemCell (h i c) = c) -> 0 <= threshold ->
  Forall (fun c => energy c = 0) g ->
  List.filter (fun item => energy (itemCell item) >? threshold) (imap h g) = [].
Proof.
  intros Hh Ht Hg. revert h Hh.
  induction Hg as [|c g Hc Hg IH]; intros h Hh; [done|].
  simpl. rewrite Hh, Hc. rewrite (proj2 (Rltb_false threshold 0)) by done.
  apply IH. intros i c'. apply Hh.
Qed.

(** X16: after [clear()], [getActiveCells(threshold)] is empty for every
    nonnegative threshold. *)
Theorem getActiveCells_clear (f : WaveField.t) (threshold : R) :
  0 <= threshold -> getActiveCells (clear f) threshold = [].
Proof.
  intros Ht. unfold getActiveCells. apply filter_imap_dark; [done|done|].
  unfold clear. simpl. apply Forall_forall.
  by intros c (c0 & -> & _)%list_elem_of_fmap.
Qed.

Lemma getActiveCells_clear_witness :
  0 <= 0.05 /\ getActiveCells (clear sample_field) 0.05 = [].
Proof. split; [lra|]. apply (getActiveCells_clear sample_field 0.05). lra. Defined.

(** ** snapToScale on every scale *)

Lemma scale_pattern_cases (scaleType : string) :
  In (Utils.scale_pattern scaleType)
     [ [0; 2; 4; 5; 7; 9; 11]; [0; 2; 3; 5; 7; 8; 10]; [0; 2; 4; 7; 9];
       [0; 3; 5; 7; 10]; [0; 2; 3; 5; 7; 8; 11];
       [0; 1; 2; 3; 4; 5; 6; 7; 8; 9; 10; 11] ]%Z.
Proof.
  unfold Utils.scale_pattern, Utils.scales, Utils.scale_lookup.
  repeat match goal with
         | |- context [String.eqb ?a scaleType] => destruct (String.eqb a scaleType)
         end; simpl; auto 10.
Qed.

(** Every pattern holds the root, its notes are within one octave, and the
    search at a note of the pattern returns that note. *)
Lemma scale_pattern_ok (scaleType : string) :
  In 0%Z (Utils.scale_pattern scaleType) /\
  Forall (fun n => (0 <= n < 12)%Z /\
                   closest_note_Z n (Utils.scale_pattern scaleType) = n)
         (Utils.scale_pattern scaleType).
Proof.
  pose proof (scale_pattern_cases scaleType) as H. simpl in H.
  repeat destruct H as [<-|H]; try done;
    (split; [simpl; auto|]);
    repeat (apply Forall_cons_2; [split; [lia|reflexivity]|]); apply Forall_nil_2.
Qed.

Lemma closest_note_pattern_mod (s : R) (scaleType : string) :
  In (Utils.closest_note s (Utils.scale_pattern scaleType) mod 12)%Z
     (Utils.scale_pattern scaleType).
Proof.
  destruct (scale_pattern_ok scaleType) as [H0 Hok].
  apply (closest_note_in_scale s _
           (fun n => In (n mod 12)%Z (Utils.scale_pattern scaleType))).
  - done.
  - rewrite Forall_forall in Hok. apply Forall_forall. intros n Hn.
    destruct (Hok n Hn) as [Hrange _]. apply list_elem_of_In in Hn.
    split.
    + by rewrite Z.mod_small by lia.
    + replace (n - 12)%Z with (n + (-1) * 12)%Z by lia.
      rewrite Z.mod_add by lia. by rewrite Z.mod_small by lia.
Qed.

Lemma snapToScale_note_scale (f : R) (scaleType : string) :
  exists k : Z,
    In (k mod 12)%Z (Utils.scale_pattern scaleType) /\
    Utils.snapToScale f scaleType = note_frequency k.
Proof.
  unfold Utils.snapToScale. eexists. split; [|reflexivity].
  rewrite Z.add_comm, Z.mod_add by lia. apply closest_note_pattern_mod.
Qed.


Lemma snapToScale_fixed_scale (k : Z) (scaleType : string) :
  In (k mod 12)%Z (Utils.scale_pattern scaleType) ->
  Utils.snapToScale (note_frequency k) scaleType = note_frequency k.
Proof.
  intros Hk. unfold Utils.snapToScale.
  rewrite log2_note_frequency, floor_div_12, semitones_in_octave.
  rewrite closest_note_lift.
  destruct (scale_pattern_ok scaleType) as [_ Hok].
  rewrite Forall_forall in Hok. apply list_elem_of_In in Hk.
  destruct (Hok _ Hk) as [_ ->].
  replace (k / 12 * 12 + k mod 12)%Z with k; [done|].
  pose proof (Z.div_mod k 12 ltac:(lia)). lia.
Qed.

(** X18: [snapToScale] is idempotent on every scale type, for every
    frequency [f > 0]. *)
Theorem snapToScale_idempotent_scale (f : R) (scaleType : string) :
  0 < f ->
  Utils.snapToScale (Utils.snapToScale f scaleType) scaleType
  = Utils.snapToScale f scaleType.
Proof.
  intros _. destruct (snapToScale_note_scale f scaleType) as (k & Hk & ->).
  by apply snapToScale_fixed_scale.
Qed.

Lemma snapToScale_idempotent_scale_witness :
  0 < 450 /\
  Utils.snapToScale (Utils.snapToScale 450 "pentatonic") "pentatonic"
  = Utils.snapToScale 450 "pentatonic".
Proof.
  split; [lra|]. apply (snapToScale_idempotent_scale 450 "pentatonic"). lra.
Defined.

(** The double remainder of [snapToScale] is the remainder of the floor
    division: the number of semitones above the start of the octave. *)
Lemma semitones_in_octave_floor (s : R) :
  rem (rem s 12 + 12) 12 = s - 12 * IZR (Zfloor (s / 12)) /\
  0 <= s - 12 * IZR (Zfloor (s / 12)) < 12.
Proof.
  pose proof (Zfloor_bound (s / 12)) as [Hlo Hhi].
  set (q := Zfloor (s / 12)) in *.
  assert (Hr : 0 <= s - 12 * IZR q < 12) by lra.
  split; [|done].
  assert (Hshift : forall a, 0 <= a < 12 -> rem (a + 12) 12 = a).
  { intros a Ha. unfold rem, trunc.
    rewrite (proj2 (Rleb_true 0 ((a + 12) / 12))) by lra.
    rewrite (Zfloor_eq 1) by (simpl; lra). simpl. lra. }
  unfold rem at 2. unfold trunc.
  destruct (0 <=? s / 12) eqn:E; [apply Rleb_true in E|apply Rleb_false in E].
  - fold q. by rewrite Hshift.
  - destruct (Req_dec (s - 12 * IZR q) 0) as [Hz|Hnz].
    + assert (Hs : s / 12 = IZR q) by lra.
      rewrite Hs. unfold Zceil. rewrite <- opp_IZR, ZfloorZ, Z.opp_involutive.
      replace (s - 12 * IZR q + 12) with (0 + 12) by lra.
      rewrite Hshift; lra.
    + rewrite (Zceil_eq (q + 1)) by (rewrite plus_IZR; simpl; lra).
      rewrite plus_IZR. simpl.
      replace (s - 12 * (IZR q + 1) + 12) with (s - 12 * IZR q) by lra.
      apply rem_small. lra.
Qed.

Lemma log2_double (x : R) : 0 < x -> Math_log2 (2 * x) = Math_log2 x + 1.
Proof.
  intros Hx. unfold Math_log2. rewrite ln_mult by lra.
  pose proof ln_2_pos. field. lra.
Qed.

(** X19: [snapToScale] commutes with the octave: for every [f > 0] and every
    scale type, the frequency [2 * f] snaps to twice the frequency that [f]
    snaps to. *)
Theorem snapToScale_octave (f : R) (scaleType : string) :
  0 < f ->
  Utils.snapToScale (2 * f) scaleType = 2 * Utils.snapToScale f scaleType.
Proof.
  intros Hf. unfold Utils.snapToScale.
  replace (2 * f / 440) with (2 * (f / 440)) by lra.
  rewrite log2_double by (apply Rdiv_lt_0_compat; lra).
  set (s := 12 * Math_log2 (f / 440)).
  replace (12 * (Math_log2 (f / 440) + 1)) with (s + 12) by (unfold s; lra).
  assert (Hfloor : Zfloor ((s + 12) / 12) = (Zfloor (s / 12) + 1)%Z).
  { replace ((s + 12) / 12) with (s / 12 + IZR 1) by (simpl; lra).
    apply Zfloor_addz. }
  assert (Hsio : s + 12 - 12 * IZR (Zfloor ((s + 12) / 12))
                 = s - 12 * IZR (Zfloor (s / 12)))
    by (rewrite Hfloor, plus_IZR; simpl; lra).
  destruct (semitones_in_octave_floor s) as [-> _].
  destruct (semitones_in_octave_floor (s + 12)) as [-> _].
  rewrite Hsio. unfold Math_floor. rewrite Hfloor.
  set (note := Utils.closest_note _ _).
  assert (He : IZR ((Zfloor (s / 12) + 1) * 12 + note) / 12
               = IZR (Zfloor (s / 12) * 12 + note) / 12 + 1).
  { rewrite !plus_IZR, !mult_IZR, plus_IZR. simpl. lra. }
  rewrite He. unfold Math_pow. rewrite Rpower_plus, Rpower_1 by lra. lra.
Qed.

Lemma snapToScale_octave_witness :
  0 < 450 /\
  Utils.snapToScale (2 * 450) "minor" = 2 * Utils.snapToScale 450 "minor".
Proof. split; [lra|]. apply (snapToScale_octave 450 "minor"). lra. Defined.











(** ** Colors *)

Lemma round_channel (x : R) :
  0 <= x <= 1 ->
  exists n : Z, Math_round (x * 255) = IZR n /\ (0 <= n <= 255)%Z.
Proof.
  intros Hx. unfold Math_round. eexists. split; [reflexivity|].
  pose proof (Zfloor_bound (x * 255 + 0.5)) as [Hlo Hhi]. split.
  - apply Zfloor_lub. simpl. lra.
  - assert (Zfloor (x * 255 + 0.5) < 256)%Z; [|lia].
    apply lt_IZR. lra.
Qed.

Lemma hue2rgb_range (p q t : R) :
  0 <= p <= q -> - (1 / 3) <= t <= 4 / 3 ->
  p <= Utils.hue2rgb p q t <= q.
Proof.
  intros Hpq Ht. unfold Utils.hue2rgb.
  destruct (t <? 0) eqn:E0; [apply Rltb_true in E0|apply Rltb_false in E0].
  - rewrite (proj2 (Rltb_false 1 (t + 1))) by lra. rcases; nra.
  - destruct (t >? 1) eqn:E1; [apply Rltb_true in E1|apply Rltb_false in E1];
      rcases; nra.
Qed.

Lemma hslToRgb_range (h s l : R) :
  0 <= h <= 1 -> 0 <= s <= 1 -> 0 <= l <= 1 ->
  exists r g b : Z,
    Utils.hslToRgb h s l = mkColor (IZR r) (IZR g) (IZR b) /\
    (0 <= r <= 255)%Z /\ (0 <= g <= 255)%Z /\ (0 <= b <= 255)%Z.
Proof.
  intros Hh Hs Hl. unfold Utils.hslToRgb.
  destruct (Reqb s 0) eqn:Es; [apply Reqb_true in Es|apply Reqb_false in Es].
  - destruct (round_channel l Hl) as (n & -> & Hn). by exists n, n, n.
  - set (q := if l <? 0.5 then l * (1 + s) else l + s - l * s).
    assert (Hq : l <= q <= 1 /\ q <= 2 * l) by (unfold q; rcases; nra).
    assert (Hpq : 0 <= 2 * l - q <= q) by lra.
    pose proof (hue2rgb_range (2 * l - q) q (h + 1 / 3) Hpq ltac:(lra)) as Hr.
    pose proof (hue2rgb_range (2 * l - q) q h Hpq ltac:(lra)) as Hg.
    pose proof (hue2rgb_range (2 * l - q) q (h - 1 / 3) Hpq ltac:(lra)) as Hb.
    destruct (round_channel (Utils.hue2rgb (2 * l - q) q (h + 1 / 3)))
      as (r & -> & Hrn); [lra|].
    destruct (round_channel (Utils.hue2rgb (2 * l - q) q h))
      as (g & -> & Hgn); [lra|].
    destruct (round_channel (Utils.hue2rgb (2 * l - q) q (h - 1 / 3)))
      as (b & -> & Hbn); [lra|].
    by exists r, g, b.
Qed.

(** X21: for hue, saturation and lightness between 0 and 1, every channel of
    [hslToRgb(h, s, l)] is an integer between 0 and 255; with saturation 0
    the three channels are equal. *)
Theorem hslToRgb_channels (h s l : R) :
  0 <= h <= 1 -> 0 <= s <= 1 -> 0 <= l <= 1 ->
  (exists r g b : Z,
     Utils.hslToRgb h s l = mkColor (IZR r) (IZR g) (IZR b) /\
     (0 <= r <= 255)%Z /\ (0 <= g <= 255)%Z /\ (0 <= b <= 255)%Z) /\
  (s = 0 ->
   c0 (Utils.hslToRgb h s l) = c1 (Utils.hslToRgb h s l) /\
   c1 (Utils.hslToRgb h s l) = c2 (Utils.hslToRgb h s l)).
Proof.
  intros Hh Hs Hl. split; [by apply hslToRgb_range|].
  intros ->. unfold Utils.hslToRgb.
  destruct (Reqb 0 0) eqn:Es; [done|]. apply Reqb_false in Es. lra.
Qed.

Lemma hslToRgb_channels_witness :
  0 <= 0.5 <= 1 /\ 0 <= 0.85 <= 1 /\ 0 <= 0.6 <= 1 /\
  exists r g b : Z,
    Utils.hslToRgb 0.5 0.85 0.6 = mkColor (IZR r) (IZR g) (IZR b) /\
    (0 <= r <= 255)%Z /\ (0 <= g <= 255)%Z /\ (0 <= b <= 255)%Z.
Proof.
  split; [lra|]. split; [lra|]. split; [lra|].
  destruct (hslToRgb_channels 0.5 0.85 0.6) as [H _]; [lra|lra|lra|exact H].
Defined.

Lemma rem_1_range (x : R) : 0 <= x -> 0 <= rem x 1 < 1.
Proof.
  intros Hx. unfold rem, trunc.
  replace (x / 1) with x by lra.
  rewrite (proj2 (Rleb_true 0 x)) by done.
  pose proof (Zfloor_bound x). lra.
Qed.

(** X22: for a nonnegative player id and a nonnegative variation, every
    channel of [getPlayerColor(playerId, variation)] is an integer between 0
    and 255. *)
Theorem getPlayerColor_channels (playerId variation : R) :
  0 <= playerId -> 0 <= variation ->
  exists r g b : Z,
    Utils.getPlayerColor playerId variation = mkColor (IZR r) (IZR g) (IZR b) /\
    (0 <= r <= 255)%Z /\ (0 <= g <= 255)%Z /\ (0 <= b <= 255)%Z.
Proof.
  intros Hp Hv. unfold Utils.getPlayerColor.
  pose proof (rem_1_range (playerId * 0.618033988749895) ltac:(nra)) as H1.
  pose proof (rem_1_range (rem (playerId * 0.618033988749895) 1 + variation * 0.2)
                ltac:(lra)) as H2.
  apply hslToRgb_range; lra.
Qed.

Lemma getPlayerColor_channels_witness :
  0 <= 3 /\ 0 <= 0.9 /\
  exists r g b : Z,
    Utils.getPlayerColor 3 0.9 = mkColor (IZR r) (IZR g) (IZR b) /\
    (0 <= r <= 255)%Z /\ (0 <= g <= 255)%Z /\ (0 <= b <= 255)%Z.
Proof.
  split; [lra|]. split; [lra|].
  apply (getPlayerColor_channels 3 0.9); lra.
Defined.

(** ** The emitter *)

(** X23: after an active emitter with a positive [waveDensity] has emitted
    a wave at a nonzero time [t], [shouldEmitWave(t')] holds exactly when at
    least [1000 / waveDensity] milliseconds have passed since [t]. *)
Theorem emitWave_then_shouldEmitWave (e : Emitter.t) (intensity t random now t' : R) :
  active e = true -> 0 < waveDensity e -> t <> 0 ->
  (shouldEmitWave (emitter (emitWave e intensity (JsNumber t) random now)) t' = true
   <-> 1000 / waveDensity e <= t' - t).
Proof.
  intros Hactive Hdensity Ht. unfold emitWave. rewrite Hactive. simpl.
  rewrite (proj2 (Reqb_false t 0) Ht).
  unfold shouldEmitWave. simpl. rewrite Hactive. simpl.
  rewrite (proj2 (Rleb_false _ _) Hdensity). apply Rleb_true.
Qed.

Lemma emitWave_then_shouldEmitWave_witness :
  active (thruster 200) = true /\ 0 < waveDensity (thruster 200) /\ 1000 <> 0 /\
  shouldEmitWave (emitter (emitWave (thruster 200) 1 (JsNumber 1000) 0.5 1000)) 1050
  = false.
Proof.
  assert (Hd : 0 < waveDensity (thruster 200)) by (simpl; lra).
  assert (Ht : 1000 <> 0) by lra.
  split; [reflexivity|]. split; [exact Hd|]. split; [exact Ht|].
  pose proof (emitWave_then_shouldEmitWave (thruster 200) 1 1000 0.5 1000 1050
                eq_refl Hd Ht) as [H _].
  destruct (shouldEmitWave _ 1050); [|reflexivity].
  specialize (H eq_refl). simpl in H. exfalso. lra.
Defined.

(** A deactivated emitter emits nothing: [emitWave] returns [null],
    calls no callback and leaves the emitter as it is, and [shouldEmitWave]
    is false at every time; once activated again, [emitWave] returns a
    wave. *)
Lemma deactivate_silences (e : Emitter.t) (intensity : R) (timeStep : JsValue)
    (random now currentTime : R) :
  emitWave (deactivate e) intensity timeStep random now
  = mkEmission None (deactivate e) [] /\
  shouldEmitWave (deactivate e) currentTime = false /\
  exists wave : Wave,
    returned (emitWave (activate (deactivate e)) intensity timeStep random now)
    = Some wave.
Proof. split; [done|]. split; [done|]. by eexists. Qed.



(** X25: for a nonnegative player id the base frequency is between A3 and
    A4 (220 to 440, 440 excluded), a fifth higher for a weapon and an octave
    lower for an explosion; it depends on the player id modulo 8 only. *)
Theorem calculateBaseFrequency_range (e : Emitter.t) :
  (0 <= playerId e)%Z ->
  (type e = "weapon"%string ->
   330 <= calculateBaseFrequency e < 660) /\
  (type e = "explosion"%string ->
   110 <= calculateBaseFrequency e < 220) /\
  (type e <> "weapon"%string -> type e <> "explosion"%string ->
   220 <= calculateBaseFrequency e < 440) /\
  (forall e' : Emitter.t,
     type e' = type e -> (playerId e' = playerId e + 8)%Z ->
     calculateBaseFrequency e' = calculateBaseFrequency e).
Proof.
  intros Hid. unfold calculateBaseFrequency.
  change 8 with (IZR 8). rewrite rem_nonneg by lia.
  pose proof (Z.mod_pos_bound (playerId e) 8 ltac:(lia)) as [Hlo Hhi].
  apply IZR_le in Hlo. apply IZR_lt in Hhi. simpl in Hlo, Hhi.
  split; [|split; [|split]].
  - intros ->. simpl. lra.
  - intros ->. simpl. lra.
  - intros Hw Hx. apply String.eqb_neq in Hw, Hx. rewrite Hw, Hx.
    destruct (String.eqb (type e) "thruster"); simpl; lra.
  - intros e' -> ->. rewrite rem_nonneg by lia.
    replace (playerId e + 8)%Z with (playerId e + 1 * 8)%Z by lia.
    by rewrite Z.mod_add by lia.
Qed.

Lemma calculateBaseFrequency_range_witness :
  (0 <= playerId (thruster 200))%Z /\
  220 <= calculateBaseFrequency (thruster 200) < 440.
Proof.
  split; [simpl; lia|].
  destruct (calculateBaseFrequency_range (thruster 200)) as (_ & _ & H & _);
    [simpl; lia|].
  apply H; discriminate.
Defined.

(** ** The lifecycle of the traveling waves *)

(** X26: one tick of growth with a nonnegative speed and time step, on a
    wave with a positive [maxRadius], a nonnegative radius and a nonnegative
    intensity: the radius does not shrink, the intensity stays nonnegative
    and does not grow, and [maxRadius] and the speed are kept. *)
Theorem grow_monotone (dt : R) (w : Wave) :
  0 <= dt -> 0 <= speed w -> 0 < waveMaxRadius w ->
  0 <= waveRadius w -> 0 <= waveIntensity w ->
  waveRadius (grow dt w) = waveRadius w + speed w * dt /\
  waveRadius w <= waveRadius (grow dt w) /\
  0 <= waveIntensity (grow dt w) <= waveIntensity w /\
  waveMaxRadius (grow dt w) = waveMaxRadius w /\
  speed (grow dt w) = speed w.
Proof.
  intros Hdt Hspeed Hmax Hr Hi. unfold grow; simpl.
  split; [done|]. split; [nra|]. split; [|done].
  unfold Math_max. split; [apply Rmax_l|].
  apply Rmax_lub; [done|].
  assert (Hq : 0 <= (waveRadius w + speed w * dt) / waveMaxRadius w / 2).
  { unfold Rdiv. assert (0 < / waveMaxRadius w) by (by apply Rinv_0_lt_compat).
    assert (0 <= waveRadius w + speed w * dt) by nra. nra. }
  nra.
Qed.

Lemma grow_monotone_witness :
  0 <= 0.1 /\
  waveRadius (grow 0.1 (mkWave "e" 0 "thruster" (mkVec2 0 0) 0 360 10 300 200 1
                          440 (mkColor 0 0 0) "sine" "lowpass" 800 1 0.3 0.3 0))
  = 10 + 200 * 0.1.
Proof.
  split; [lra|].
  refine (proj1 (grow_monotone 0.1 _ _ _ _ _ _)); simpl; lra.
Defined.

Lemma updateTravelingWaves_sublist (dt : R) (refs : list nat) (st : list Wave) :
  sublist (updateTravelingWaves dt st refs).2 refs.
Proof.
  revert st. induction refs as [|r refs IH]; intros st; simpl; [done|].
  destruct (st !! r) as [w|].
  - destruct (renderer_keeps (grow dt w)); simpl.
    + apply sublist_skip, IH.
    + apply sublist_cons, IH.
  - apply sublist_cons, IH.
Qed.

Lemma renderer_ticks_sublist (n : nat) (dt : R) (st : list Wave) (refs : list nat) :
  sublist (renderer_ticks n dt (st, refs)).2 refs.
Proof.
  revert st refs. induction n as [|n IH]; intros st refs; simpl; [done|].
  destruct (updateTravelingWaves dt st refs) as [st1 refs1] eqn:Hstep.
  etrans; [apply IH|].
  pose proof (updateTravelingWaves_sublist dt refs st) as H.
  by rewrite Hstep in H.
Qed.

(** X27: a wave of the renderer's collection with a positive speed leaves
    the collection for good once its radius, grown by [speed * deltaTime] in
    every tick, has reached [maxRadius]: after [n >= 1] ticks with
    [radius + n * speed * deltaTime >= maxRadius] it is no longer in the
    collection, whatever its intensity. *)
Theorem wave_removed_in_time (n : nat) (dt : R) (st : list Wave) (refs : list nat)
    (r : nat) (w : Wave) :
  NoDup refs -> Forall (fun r => is_Some (st !! r)) refs ->
  st !! r = Some w -> 0 < speed w * dt -> (1 <= n)%nat ->
  waveMaxRadius w <= waveRadius w + INR n * (speed w * dt) ->
  r ∉ (renderer_ticks n dt (st, refs)).2.
Proof.
  intros Hnd Hall Hw Hspeed Hn. revert st refs w Hnd Hall Hw Hspeed.
  induction n as [|n IH]; [lia|]. intros st refs w Hnd Hall Hw Hspeed Hreach.
  rewrite S_INR in Hreach.
  destruct (decide (r ∈ refs)) as [Hin|Hout].
  2:{ intros Hr. apply Hout. eapply elem_of_sublist; [exact Hr|].
      apply renderer_ticks_sublist. }
  simpl renderer_ticks.
  destruct (updateTravelingWaves_spec dt refs Hnd st Hall) as (Hlen & Hst & Hrefs).
  pose proof (updateTravelingWaves_sublist dt refs st) as Hsub.
  destruct (updateTravelingWaves dt st refs) as [st1 refs1] eqn:Hstep.
  simpl in *.
  assert (Hw1 : st1 !! r = Some (grow dt w))
    by (rewrite (Hst r w Hw); by rewrite decide_True).
  destruct (decide (r ∈ refs1)) as [Hin1|Hout1].
  2:{ intros Hr. apply Hout1. eapply elem_of_sublist; [exact Hr|].
      apply renderer_ticks_sublist. }
  apply Hrefs in Hin1 as (_ & w' & Hw' & Hkeep).
  assert (w' = w) as -> by congruence.
  apply renderer_keeps_true in Hkeep as [Hrad _].
  assert (Hgrow : waveRadius (grow dt w) = waveRadius w + speed w * dt) by done.
  assert (Hmax : waveMaxRadius (grow dt w) = waveMaxRadius w) by done.
  assert (Hsp : speed (grow dt w) = speed w) by done.
  destruct n as [|n]; [simpl in Hreach; lra|].
  apply (IH ltac:(lia) st1 refs1 (grow dt w)).
  - by eapply sublist_NoDup.
  - apply Forall_forall. intros r' Hr'. apply lookup_lt_is_Some. rewrite Hlen.
    rewrite Forall_forall in Hall. apply lookup_lt_is_Some, Hall.
    by eapply elem_of_sublist.
  - done.
  - by rewrite Hsp.
  - rewrite Hgrow, Hmax, Hsp. lra.
Qed.

Lemma wave_removed_in_time_witness :
  let w := mkWave "e" 0 "thruster" (mkVec2 0 0) 0 360 10 300 200 1
             440 (mkColor 0 0 0) "sine" "lowpass" 800 1 0.3 0.3 0 in
  NoDup [0%nat] /\ 0 < speed w * 0.1 /\
  waveMaxRadius w <= waveRadius w + INR 15 * (speed w * 0.1) /\
  0%nat ∉ (renderer_ticks 15 0.1 ([w], [0%nat])).2.
Proof.
  intros w.
  assert (Hnd : NoDup [0%nat]) by (apply NoDup_singleton).
  assert (Hs : 0 < speed w * 0.1) by (simpl; lra).
  assert (Hr : waveMaxRadius w <= waveRadius w + INR 15 * (speed w * 0.1)).
  { replace (INR 15) with 15 by (simpl; lra). simpl. lra. }
  split; [exact Hnd|]. split; [exact Hs|]. split; [exact Hr|].
  apply (wave_removed_in_time 15 0.1 [w] [0%nat] 0%nat w Hnd); try done.
  - apply Forall_cons_2; [by eexists|apply Forall_nil_2].
  - lia.
Defined.

(** ** The game loop keeps its references sound *)

Lemma elem_of_clean_up (st : list Wave) (refs : list nat) (r : nat) :
  r ∈ clean_up st refs <->
  r ∈ refs /\ exists w, st !! r = Some w /\ game_keeps w = true.
Proof.
  unfold clean_up. rewrite !list_elem_of_In, filter_In. split.
  - intros [Hin Hkeep]. split; [done|].
    destruct (st !! r) as [w|]; [by exists w|done].
  - intros (Hin & w & Hw & Hkeep). split; [done|]. by rewrite Hw.
Qed.

Lemma renderer_keeps_game_keeps (w : Wave) :
  renderer_keeps w = true -> game_keeps w = true.
Proof.
  unfold renderer_keeps, game_keeps. intros [Hr Hi]%andb_prop.
  rewrite Hi, andb_true_r. apply Rltb_true in Hr.
  destruct (waveRadius w <=? waveMaxRadius w) eqn:E; [done|].
  apply Rleb_false in E. lra.
Qed.

Lemma pulses_ok (st : list Wave) (refs : list nat) :
  forall (field : WaveField.t) (sent : list nat),
  field_inv field ->
  exists (field' : WaveField.t) (sent' : list nat),
    foldM (pulse_wave st) refs (field, sent) = Ok (field', sent') /\
    field_inv field'.
Proof.
  induction refs as [|r refs IH]; intros field sent Hinv; simpl.
  - by exists field, sent.
  - unfold pulse_wave at 1. simpl. destruct (st !! r) as [w|]; [|by apply IH].
    destruct (waveIntensity w >? 0.05) eqn:E; [|by apply IH].
    apply Rltb_true in E.
    destruct (addWavePulse_inv field (pulse_of w)) as (field1 & Hrun & Hinv1);
      [simpl; lra|done|].
    rewrite Hrun. simpl. by apply IH.
Qed.

Lemma onWaveEmitted_inv (g : Game.Game) (wave : Wave) :
  game_inv g -> game_inv (onWaveEmitted g wave).
Proof.
  intros (Hnd & Hsub & Hsome & Hfield). unfold game_inv, onWaveEmitted; simpl.
  split; [|split; [|split; [|done]]].
  - unfold addTravelingWave. apply NoDup_app. split; [done|]. split.
    + intros r Hr ->%list_elem_of_singleton.
      apply Hsub, Hsome, lookup_lt_is_Some in Hr. lia.
    + apply NoDup_singleton.
  - unfold addTravelingWave. intros r [Hr|Hr]%elem_of_app; apply elem_of_app.
    + left. by apply Hsub.
    + by right.
  - intros r [Hr|Hr]%elem_of_app; apply lookup_lt_is_Some;
      rewrite length_app; simpl.
    + apply Hsome, lookup_lt_is_Some in Hr. lia.
    + apply list_elem_of_singleton in Hr. lia.
Qed.

Lemma game_update_inv (g : Game.Game) (deltaTime : R) :
  game_inv g -> 0 <= deltaTime ->
  exists (g' : Game.Game) (pulsed : list nat),
    Game.update g deltaTime = Ok (g', pulsed) /\ game_inv g'.
Proof.
  intros (Hnd & Hsub & Hsome & Hfield) Hdt. unfold Game.update.
  set (dt := Math_min deltaTime 0.1).
  assert (Hdt' : 0 <= dt) by (unfold dt, Math_min; apply Rmin_glb; lra).
  assert (Hall : Forall (fun r => is_Some (Game.store g !! r)) (rendererWaves g)).
  { apply Forall_forall. intros r Hr. by apply Hsome, Hsub. }
  destruct (updateTravelingWaves_spec dt (rendererWaves g) Hnd (Game.store g) Hall)
    as (Hlen & Hst & Hrefs).
  pose proof (updateTravelingWaves_sublist dt (rendererWaves g) (Game.store g)) as Hsl.
  destruct (updateTravelingWaves dt (Game.store g) (rendererWaves g))
    as [store1 rendererWaves1] eqn:Hstep.
  simpl in Hlen, Hst, Hrefs, Hsl.
  destruct (update_inv (waveField g) dt Hdt' Hfield) as (field1 & Hrun & Hinv1).
  rewrite Hrun. simpl.
  destruct (pulses_ok store1 (gameWaves g) field1 [] Hinv1)
    as (field2 & sent & Hfold & Hinv2).
  rewrite Hfold. simpl. eexists _, _. split; [reflexivity|].
  unfold game_inv; simpl. split; [|split; [|split; [|done]]].
  - by eapply sublist_NoDup.
  - intros r Hr. apply elem_of_clean_up.
    apply Hrefs in Hr as (Hin & w & Hw & Hkeep). split; [by apply Hsub|].
    exists (grow dt w). split; [|by apply renderer_keeps_game_keeps].
    rewrite (Hst r w Hw). by rewrite decide_True.
  - intros r (_ & w & Hw & _)%elem_of_clean_up. by exists w.
Qed.

Lemma playable_inv (g : Game.Game) : playable g -> game_inv g.
Proof.
  induction 1 as [field Hreach|g wave _ IH|g g' dt pulsed _ IH Hdt Hrun].
  - unfold game_inv; simpl. split; [apply NoDup_nil_2|].
    split; [by intros r ?%elem_of_nil|]. split; [by intros r ?%elem_of_nil|].
    by apply reachable_inv.
  - by apply onWaveEmitted_inv.
  - destruct (game_update_inv g dt IH Hdt) as (g1 & pulsed1 & Hrun1 & Hinv1).
    congruence.
Qed.

(** X28: the wave handling of a tick of the game loop never throws.  In
    every game obtained from a new game by emissions and ticks with
    nonnegative time steps, the steps of [update] on the waves and the field,
    with a nonnegative time step, return normally; afterwards the energies of
    the field are still between 0 and 1, the renderer's collection has no
    wave twice, every wave that the renderer still draws is still in the
    game's collection, and every wave of the game's collection passed the
    game's clean-up test. *)
Theorem game_update_sound (g : Game.Game) (deltaTime : R) :
  playable g -> 0 <= deltaTime ->
  exists (g' : Game.Game) (pulsed : list nat),
    Game.update g deltaTime = Ok (g', pulsed) /\
    energy_bounded (waveField g') /\
    NoDup (rendererWaves g') /\
    (forall r : nat, r ∈ rendererWaves g' -> r ∈ gameWaves g') /\
    (forall r : nat, r ∈ gameWaves g' ->
       exists w : Wave, Game.store g' !! r = Some w /\
                        waveRadius w <= waveMaxRadius w /\ 0.01 < waveIntensity w).
Proof.
  intros Hplay Hdt.
  destruct (game_update_inv g deltaTime (playable_inv g Hplay) Hdt)
    as (g' & pulsed & Hrun & Hnd & Hsub & Hsome & Hfield).
  exists g', pulsed. split; [done|]. split; [apply Hfield|].
  split; [done|]. split; [done|].
  intros r Hr. unfold Game.update in Hrun.
  destruct (updateTravelingWaves _ _ _) as [store1 rendererWaves1].
  destruct (WaveField.update _ _) as [field1|]; [|done]. simpl in Hrun.
  destruct (foldM _ _ _) as [st|]; [|done]. simpl in Hrun.
  injection Hrun as <- _. simpl in *.
  apply elem_of_clean_up in Hr as (_ & w & Hw & Hkeep).
  exists w. split; [done|]. unfold game_keeps in Hkeep.
  apply andb_prop in Hkeep as [Hr Hi].
  apply Rleb_true in Hr. apply Rltb_true in Hi. lra.
Qed.

Lemma game_update_sound_witness :
  let w := mkWave "e" 0 "thruster" (mkVec2 50 50) 0 360 10 300 200 1
             440 (mkColor 0 0 0) "sine" "lowpass" 800 1 0.3 0.3 0 in
  let g := onWaveEmitted (Game.mkGame [] [] [] sample_field) w in
  0 <= 0.016 /\
  exists (g' : Game.Game) (pulsed : list nat),
    Game.update g 0.016 = Ok (g', pulsed) /\ energy_bounded (waveField g').
Proof.
  intros w g. split; [lra|].
  destruct (game_update_sound g 0.016) as (g' & pulsed & Hrun & Hb & _).
  - apply playable_emit, playable_new, sample_field_reachable.
  - lra.
  - by exists g', pulsed.
Defined.

(** ** The average of colors *)

Lemma sum_colors_bounds (colors : list Color) :
  forall (sum : Color) (k : nat),
  Forall (fun c => 0 <= c0 c <= 255 /\ 0 <= c1 c <= 255 /\ 0 <= c2 c <= 255) colors ->
  0 <= c0 sum <= 255 * INR k -> 0 <= c1 sum <= 255 * INR k ->
  0 <= c2 sum <= 255 * INR k ->
  let total :=
    fold_left (fun sum color =>
                 mkColor (c0 sum + c0 color) (c1 sum + c1 color) (c2 sum + c2 color))
              colors sum in
  0 <= c0 total <= 255 * INR (k + length colors) /\
  0 <= c1 total <= 255 * INR (k + length colors) /\
  0 <= c2 total <= 255 * INR (k + length colors).
Proof.
  induction colors as [|c colors IH]; intros sum k Hall H0 H1 H2; simpl.
  - by rewrite Nat.add_0_r.
  - apply Forall_cons in Hall as [(Hc0 & Hc1 & Hc2) Hall].
    replace (k + S (length colors))%nat with (S k + length colors)%nat by lia.
    pose proof (pos_INR k).
    apply IH; [done|..]; rewrite S_INR; cbn [c0 c1 c2]; lra.
Qed.

Lemma round_average (s n : R) :
  0 < n -> 0 <= s <= 255 * n ->
  exists m : Z, Math_round (s / n) = IZR m /\ (0 <= m <= 255)%Z.
Proof.
  intros Hn Hs. unfold Math_round. eexists. split; [reflexivity|].
  assert (Hq : 0 <= s / n <= 255).
  { assert (Hinv : 0 < / n) by (by apply Rinv_0_lt_compat). unfold Rdiv. split.
    - apply Rmult_le_pos; lra.
    - apply (Rmult_le_reg_r n); [done|].
      rewrite Rmult_assoc, Rinv_l by lra. lra. }
  pose proof (Zfloor_bound (s / n + 0.5)) as [Hlo Hhi]. split.
  - apply Zfloor_lub. simpl. lra.
  - assert (Zfloor (s / n + 0.5) < 256)%Z; [|lia].
    apply lt_IZR. lra.
Qed.

(** X29: [getAverageColor] of colors with channels between 0 and 255 is a
    color with whole-number channels between 0 and 255; of no colors at all it
    is white. *)
Theorem getAverageColor_channels (colors : list Color) :
  Forall (fun c => 0 <= c0 c <= 255 /\ 0 <= c1 c <= 255 /\ 0 <= c2 c <= 255) colors ->
  (colors = [] -> getAverageColor colors = mkColor 255 255 255) /\
  exists r g b : Z,
    getAverageColor colors = mkColor (IZR r) (IZR g) (IZR b) /\
    (0 <= r <= 255)%Z /\ (0 <= g <= 255)%Z /\ (0 <= b <= 255)%Z.
Proof.
  intros Hall. split; [by intros ->|].
  destruct colors as [|c colors]; [by exists 255%Z, 255%Z, 255%Z|].
  unfold getAverageColor.
  destruct (sum_colors_bounds (c :: colors) (mkColor 0 0 0) 0 Hall)
    as (H0 & H1 & H2); [simpl; lra..|].
  fold (sum_colors (c :: colors)) in H0, H1, H2.
  rewrite Nat.add_0_l in H0, H1, H2.
  assert (Hn : 0 < INR (length (c :: colors))) by (apply lt_0_INR; simpl; lia).
  destruct (round_average _ _ Hn H0) as (r & -> & Hr).
  destruct (round_average _ _ Hn H1) as (g & -> & Hg).
  destruct (round_average _ _ Hn H2) as (b & -> & Hb).
  by exists r, g, b.
Qed.

Lemma getAverageColor_channels_witness :
  exists r g b : Z,
    getAverageColor [mkColor 255 0 0; mkColor 0 0 255]
    = mkColor (IZR r) (IZR g) (IZR b) /\
    (0 <= r <= 255)%Z /\ (0 <= g <= 255)%Z /\ (0 <= b <= 255)%Z.
Proof.
  apply (getAverageColor_channels [mkColor 255 0 0; mkColor 0 0 255]).
  repeat (apply Forall_cons_2; [simpl; lra|]). apply Forall_nil_2.
Defined.
